(** * claude-td prototype: a shallow embedding of [demos/prototype/main.go]

    The development follows the Go source function by function: the
    priority queue with [container/heap]'s sift loops, the A* search
    [findPath], the economy ([addTower], [removeTower]), the three
    per-tick passes ([updateEnemies], [updateTowers], [updateLasers]) and
    the tick itself ([Update]).  Theorems about them come after all the
    definitions. *)

From Stdlib Require Import ZArith Lia List Bool Permutation.
From Stdlib Require Import PrimFloat FloatOps SpecFloat Uint63.
From stdpp Require Import gmap list.

Open Scope Z_scope.

(** ** Go's [int] (64 bits, two's complement) *)

Module GoInt.

Definition minInt : Z := - 2 ^ 63.
Definition maxInt : Z := 2 ^ 63 - 1.

(** Wrap-around of an arithmetic result into the 64-bit range. *)
Definition wrap (z : Z) : Z := (z + 2 ^ 63) mod 2 ^ 64 - 2 ^ 63.

Definition add (a b : Z) : Z := wrap (a + b).
Definition sub (a b : Z) : Z := wrap (a - b).
Definition mul (a b : Z) : Z := wrap (a * b).
Definition neg (a : Z) : Z := wrap (- a).

(** Go's [/] on integers truncates toward zero. *)
Definition quot (a b : Z) : Z := wrap (Z.quot a b).

Definition inRange (z : Z) : Prop := minInt <= z <= maxInt.

End GoInt.

(** ** Go's [float64] (IEEE 754 binary64, every operation rounded on its
    own) *)

Module GoFloat.

(** [float64(n)] for an [int] [n]. *)
Definition ofInt (z : Z) : float :=
  if z =? GoInt.minInt then (-9223372036854775808)%float
  else if z <? 0 then PrimFloat.opp (PrimFloat.of_uint63 (Uint63.of_Z (- z)))
  else PrimFloat.of_uint63 (Uint63.of_Z z).

(** [int(f)]: the fraction is discarded.  For a NaN, an infinity or a
    value outside the [int] range the Go specification leaves the result
    to the implementation; amd64 yields the smallest [int]. *)
Definition toInt (f : float) : Z :=
  match Prim2SF f with
  | S754_zero _ => 0
  | S754_finite s m e =>
      let mag := if 0 <=? e then Z.shiftl (Z.pos m) e
                 else Z.shiftr (Z.pos m) (- e) in
      let v := if s then - mag else mag in
      if (GoInt.minInt <=? v) && (v <=? GoInt.maxInt) then v
      else GoInt.minInt
  | _ => GoInt.minInt
  end.

End GoFloat.

(** ** Types and constants *)

Inductive GameState := StatePlaying | StateWon | StateLost.

Record Point := mkPoint { X : Z; Y : Z }.

#[global] Instance GameState_eq_dec : EqDecision GameState.
Proof. solve_decision. Defined.

#[global] Instance Point_eq_dec : EqDecision Point.
Proof. solve_decision. Defined.

#[global] Program Instance Point_countable : Countable Point :=
  inj_countable' (fun p => (X p, Y p)) (fun q => mkPoint (fst q) (snd q)) _.
Next Obligation. by intros []. Qed.

Definition GridWidth : Z := 20.
Definition GridHeight : Z := 15.
Definition CellSize : Z := 40.

Inductive TileType :=
  TileEmpty | TileGround | TileWall | TileBase | TileSpawn | TileTower.

#[global] Instance TileType_eq_dec : EqDecision TileType.
Proof. solve_decision. Defined.

Definition EnemySpeed : float := 2%float.
Definition SpawnInterval : Z := 40.
Definition EnemyMaxHP : float := 100%float.
Definition TowerRange : float := 120%float.
Definition TowerDamage : float := 10%float.
Definition TowerCooldown : Z := 30.
Definition LaserDuration : Z := 5.
Definition TotalWaves : Z := 5.
Definition EnemiesPerWave : Z := 5.
Definition WaveDelay : Z := 180.
Definition StartingResource : Z := 100.
Definition TowerCost : Z := 25.
Definition KillReward : Z := 10.

(** The untyped constant [CellSize/2] where the source adds it to a
    [float64]. *)
Definition halfCell : float := 20%float.

Record Enemy := mkEnemy {
  Enemy_X : float;
  Enemy_Y : float;
  PathIndex : Z;
  Path : list Point;
  HP : float
}.

Record Tower := mkTower { Tower_X : Z; Tower_Y : Z; Cooldown : Z }.

Record Laser := mkLaser {
  FromX : float; FromY : float; ToX : float; ToY : float; TTL : Z
}.

(** The array [[GridHeight][GridWidth]TileType]: a finite map from cells to
    tiles in which an absent cell holds the zero value [TileEmpty]. *)
Abbreviation Grid := (gmap Point TileType).

Record Game := mkGame {
  grid : Grid;
  hoverX : Z;
  hoverY : Z;
  hoverValid : bool;
  spawn : Point;
  base : Point;
  path : option (list Point);
  pathBlocked : bool;
  enemies : list Enemy;
  spawnTimer : Z;
  towers : list Tower;
  lasers : list Laser;
  state : GameState;
  resources : Z;
  currentWave : Z;
  enemiesThisWave : Z;
  waveDelay : Z;
  totalKills : Z
}.

(** ** The priority queue of the search *)

Record pqItem := mkItem { point : Point; priority : Z; index : Z }.

Abbreviation priorityQueue := (list pqItem).

Module PQ.

Definition Len (pq : priorityQueue) : nat := length pq.

Definition Less (pq : priorityQueue) (i j : nat) : bool :=
  match pq !! i, pq !! j with
  | Some a, Some b => priority a <? priority b
  | _, _ => false
  end.

Definition setIndex (it : pqItem) (i : nat) : pqItem :=
  mkItem (point it) (priority it) (Z.of_nat i).

(** [pq[i], pq[j] = pq[j], pq[i]], then both [index] fields are
    refreshed.  An index past the end is a run-time panic in Go; the
    sift loops below only swap positions they have compared against the
    length. *)
Definition Swap (pq : priorityQueue) (i j : nat) : priorityQueue :=
  match pq !! i, pq !! j with
  | Some a, Some b => <[j := setIndex a j]> (<[i := setIndex b i]> pq)
  | _, _ => pq
  end.

Definition Push (pq : priorityQueue) (x : pqItem) : priorityQueue :=
  pq ++ [setIndex x (length pq)].

Definition Pop (pq : priorityQueue) : option (pqItem * priorityQueue) :=
  match last pq with
  | Some it => Some (mkItem (point it) (priority it) (-1),
                     take (length pq - 1) pq)
  | None => None
  end.

End PQ.

(** [container/heap] of Go's standard library, which [findPath] imports:
    the sift loops and the two entry points the search uses.  Slice
    positions are natural numbers; Go's truncating [(j - 1) / 2] is [0] at
    [j = 0], as is the natural-number expression. *)
Module heap.

(** [up]: [j] strictly decreases, so [j] more rounds than its value are
    never used. *)
Fixpoint up_loop (fuel : nat) (h : priorityQueue) (j : nat) : priorityQueue :=
  match fuel with
  | O => h
  | S fuel' =>
      let i := ((j - 1) / 2)%nat in
      if (i =? j)%nat || negb (PQ.Less h j i) then h
      else up_loop fuel' (PQ.Swap h i j) i
  end.

Definition up (h : priorityQueue) (j : nat) : priorityQueue :=
  up_loop (S j) h j.

(** [down]: [i] strictly increases and stays below [n]. *)
Fixpoint down_loop (fuel : nat) (h : priorityQueue) (i n : nat) : priorityQueue :=
  match fuel with
  | O => h
  | S fuel' =>
      let j1 := (2 * i + 1)%nat in
      if (n <=? j1)%nat then h
      else
        let j2 := (j1 + 1)%nat in
        let j := if (j2 <? n)%nat && PQ.Less h j2 j1 then j2 else j1 in
        if negb (PQ.Less h j i) then h
        else down_loop fuel' (PQ.Swap h i j) j n
  end.

Definition down (h : priorityQueue) (i0 n : nat) : priorityQueue :=
  down_loop n h i0 n.

Definition Push (h : priorityQueue) (x : pqItem) : priorityQueue :=
  let h1 := PQ.Push h x in
  up h1 (PQ.Len h1 - 1).

(** [heap.Pop] on an empty queue panics ([None]); [findPath] only calls
    it after testing [Len() > 0]. *)
Definition Pop (h : priorityQueue) : option (pqItem * priorityQueue) :=
  match h with
  | [] => None
  | _ =>
      let n := (PQ.Len h - 1)%nat in
      PQ.Pop (down (PQ.Swap h 0 n) 0 n)
  end.

End heap.

(** ** Grid and pathfinding *)

Definition tileAt (g : Grid) (x y : Z) : TileType :=
  default TileEmpty (g !! mkPoint x y).

Definition isWalkable (g : Grid) (x y : Z) : bool :=
  if (x <? 0) || (GridWidth <=? x) || (y <? 0) || (GridHeight <=? y)
  then false
  else match tileAt g x y with
       | TileGround | TileSpawn | TileBase => true
       | _ => false
       end.

(** Manhattan distance, in Go's [int] arithmetic. *)
Definition heuristic (a b : Point) : Z :=
  let dx := GoInt.sub (X a) (X b) in
  let dy := GoInt.sub (Y a) (Y b) in
  let dx := if dx <? 0 then GoInt.neg dx else dx in
  let dy := if dy <? 0 then GoInt.neg dy else dy in
  GoInt.add dx dy.

(** The three locals of [findPath] that the search loop updates. *)
Record Search := mkSearch {
  openSet : priorityQueue;
  cameFrom : gmap Point Point;
  gScore : gmap Point Z
}.

Definition dirs : list Point :=
  [mkPoint 0 (-1); mkPoint 0 1; mkPoint (-1) 0; mkPoint 1 0].

Definition neighborOf (current d : Point) : Point :=
  mkPoint (GoInt.add (X current) (X d)) (GoInt.add (Y current) (Y d)).

(** One round of [for _, d := range dirs].  Reading a key that a Go map
    does not hold gives the zero value. *)
Definition visit (g : Grid) (goal current : Point) (s : Search) (d : Point)
  : Search :=
  let neighbor := neighborOf current d in
  if negb (isWalkable g (X neighbor) (Y neighbor)) then s
  else
    let tentativeG := GoInt.add (default 0 (gScore s !! current)) 1 in
    let improves :=
      match gScore s !! neighbor with
      | Some oldG => tentativeG <? oldG
      | None => true
      end in
    if improves then
      let f := GoInt.add tentativeG (heuristic neighbor goal) in
      {| openSet := heap.Push (openSet s) (mkItem neighbor f 0);
         cameFrom := <[neighbor := current]> (cameFrom s);
         gScore := <[neighbor := tentativeG]> (gScore s) |}
    else s.

(** [for current != start { current = cameFrom[current]; ... }]; [None]
    when the rounds allowed are used up before [start] is met. *)
Fixpoint reconstruct (fuel : nat) (cf : gmap Point Point)
    (start current : Point) (acc : list Point) : option (list Point) :=
  if decide (current = start) then Some acc
  else
    match fuel with
    | O => None
    | S fuel' =>
        let current' := default (mkPoint 0 0) (cf !! current) in
        reconstruct fuel' cf start current' (current' :: acc)
    end.

Definition reconstructFuel : nat := Z.to_nat (GridWidth * GridHeight + 1).

(** [for openSet.Len() > 0 { ... }]; the loop test is the empty case of
    [heap.Pop].  The outer [None] stands for "the rounds allowed were used
    up"; [Some None] is Go's [return nil] and [Some (Some p)] a returned
    path. *)
Fixpoint search (fuel : nat) (g : Grid) (start goal : Point) (s : Search)
  : option (option (list Point)) :=
  match fuel with
  | O => None
  | S fuel' =>
      match heap.Pop (openSet s) with
      | None => Some None
      | Some (it, rest) =>
          let current := point it in
          if decide (current = goal) then
            match reconstruct reconstructFuel (cameFrom s) start current [current] with
            | Some p => Some (Some p)
            | None => None
            end
          else
            search fuel' g start goal
              (foldl (visit g goal current)
                     (mkSearch rest (cameFrom s) (gScore s)) dirs)
      end
  end.

Definition initSearch (start : Point) : Search :=
  {| openSet := heap.Push [] (mkItem start 0 0);
     cameFrom := ∅;
     gScore := {[ start := 0 ]} |}.

(** Rounds that always suffice (theorem [search_enough_fuel] below). *)
Definition searchFuel : nat :=
  Z.to_nat (2 * (GridWidth * GridHeight) * (GridWidth * GridHeight + 1) + 2).

Definition findPath_run (fuel : nat) (g : Grid) (start goal : Point)
  : option (option (list Point)) :=
  search fuel g start goal (initSearch start).

(** [findPath]: [None] is Go's nil slice. *)
Definition findPath (g : Grid) (start goal : Point) : option (list Point) :=
  match findPath_run searchFuel g start goal with
  | Some r => r
  | None => None
  end.

(** ** Building a game *)

Definition storeTile (g : Grid) (x y : Z) (t : TileType) : Grid :=
  <[mkPoint x y := t]> g.

(** [for v := lo; v < hi; v++]. *)
Definition range (lo hi : Z) : list Z := seqZ lo (hi - lo).

(** The layout loops of [NewGame]; every index is below the loop bound. *)
Definition initialGrid : Grid :=
  let g := foldl (fun g y => foldl (fun g x => storeTile g x y TileGround) g
                                   (range 0 GridWidth)) ∅ (range 0 GridHeight) in
  let g := foldl (fun g x => storeTile (storeTile g x 0 TileWall)
                                       x (GridHeight - 1) TileWall)
                 g (range 0 GridWidth) in
  let g := foldl (fun g y => storeTile (storeTile g 0 y TileWall)
                                       (GridWidth - 1) y TileWall)
                 g (range 0 GridHeight) in
  let g := storeTile g (GridWidth / 2) (GridHeight - 2) TileBase in
  let g := storeTile g (GridWidth / 2) 1 TileSpawn in
  foldl (fun g y => storeTile (storeTile g 5 y TileWall) 14 y TileWall)
        g (range 3 8).

Definition NewGame : Game :=
  let bs := mkPoint (GridWidth / 2) (GridHeight - 2) in
  let sp := mkPoint (GridWidth / 2) 1 in
  let p := findPath initialGrid sp bs in
  {| grid := initialGrid;
     hoverX := 0; hoverY := 0; hoverValid := false;
     spawn := sp; base := bs;
     path := p;
     pathBlocked := match p with None => true | Some _ => false end;
     enemies := []; spawnTimer := 0;
     towers := []; lasers := [];
     state := StatePlaying;
     resources := StartingResource;
     currentWave := 1;
     enemiesThisWave := EnemiesPerWave;
     waveDelay := 300;
     totalKills := 0 |}.

(** ** Field updates of [Game] *)

Definition set_grid (g : Game) (v : Grid) : Game :=
  mkGame v (hoverX g) (hoverY g) (hoverValid g) (spawn g) (base g) (path g)
    (pathBlocked g) (enemies g) (spawnTimer g) (towers g) (lasers g) (state g)
    (resources g) (currentWave g) (enemiesThisWave g) (waveDelay g) (totalKills g).

Definition set_hover (g : Game) (x y : Z) : Game :=
  mkGame (grid g) x y (hoverValid g) (spawn g) (base g) (path g)
    (pathBlocked g) (enemies g) (spawnTimer g) (towers g) (lasers g) (state g)
    (resources g) (currentWave g) (enemiesThisWave g) (waveDelay g) (totalKills g).

Definition set_hoverValid (g : Game) (v : bool) : Game :=
  mkGame (grid g) (hoverX g) (hoverY g) v (spawn g) (base g) (path g)
    (pathBlocked g) (enemies g) (spawnTimer g) (towers g) (lasers g) (state g)
    (resources g) (currentWave g) (enemiesThisWave g) (waveDelay g) (totalKills g).

Definition set_path (g : Game) (p : option (list Point)) (blocked : bool) : Game :=
  mkGame (grid g) (hoverX g) (hoverY g) (hoverValid g) (spawn g) (base g) p
    blocked (enemies g) (spawnTimer g) (towers g) (lasers g) (state g)
    (resources g) (currentWave g) (enemiesThisWave g) (waveDelay g) (totalKills g).

Definition set_enemies (g : Game) (v : list Enemy) : Game :=
  mkGame (grid g) (hoverX g) (hoverY g) (hoverValid g) (spawn g) (base g) (path g)
    (pathBlocked g) v (spawnTimer g) (towers g) (lasers g) (state g)
    (resources g) (currentWave g) (enemiesThisWave g) (waveDelay g) (totalKills g).

Definition set_spawnTimer (g : Game) (v : Z) : Game :=
  mkGame (grid g) (hoverX g) (hoverY g) (hoverValid g) (spawn g) (base g) (path g)
    (pathBlocked g) (enemies g) v (towers g) (lasers g) (state g)
    (resources g) (currentWave g) (enemiesThisWave g) (waveDelay g) (totalKills g).

Definition set_towers (g : Game) (v : list Tower) : Game :=
  mkGame (grid g) (hoverX g) (hoverY g) (hoverValid g) (spawn g) (base g) (path g)
    (pathBlocked g) (enemies g) (spawnTimer g) v (lasers g) (state g)
    (resources g) (currentWave g) (enemiesThisWave g) (waveDelay g) (totalKills g).

Definition set_lasers (g : Game) (v : list Laser) : Game :=
  mkGame (grid g) (hoverX g) (hoverY g) (hoverValid g) (spawn g) (base g) (path g)
    (pathBlocked g) (enemies g) (spawnTimer g) (towers g) v (state g)
    (resources g) (currentWave g) (enemiesThisWave g) (waveDelay g) (totalKills g).

Definition set_state (g : Game) (v : GameState) : Game :=
  mkGame (grid g) (hoverX g) (hoverY g) (hoverValid g) (spawn g) (base g) (path g)
    (pathBlocked g) (enemies g) (spawnTimer g) (towers g) (lasers g) v
    (resources g) (currentWave g) (enemiesThisWave g) (waveDelay g) (totalKills g).

Definition set_resources (g : Game) (v : Z) : Game :=
  mkGame (grid g) (hoverX g) (hoverY g) (hoverValid g) (spawn g) (base g) (path g)
    (pathBlocked g) (enemies g) (spawnTimer g) (towers g) (lasers g) (state g)
    v (currentWave g) (enemiesThisWave g) (waveDelay g) (totalKills g).

Definition set_currentWave (g : Game) (v : Z) : Game :=
  mkGame (grid g) (hoverX g) (hoverY g) (hoverValid g) (spawn g) (base g) (path g)
    (pathBlocked g) (enemies g) (spawnTimer g) (towers g) (lasers g) (state g)
    (resources g) v (enemiesThisWave g) (waveDelay g) (totalKills g).

Definition set_enemiesThisWave (g : Game) (v : Z) : Game :=
  mkGame (grid g) (hoverX g) (hoverY g) (hoverValid g) (spawn g) (base g) (path g)
    (pathBlocked g) (enemies g) (spawnTimer g) (towers g) (lasers g) (state g)
    (resources g) (currentWave g) v (waveDelay g) (totalKills g).

Definition set_waveDelay (g : Game) (v : Z) : Game :=
  mkGame (grid g) (hoverX g) (hoverY g) (hoverValid g) (spawn g) (base g) (path g)
    (pathBlocked g) (enemies g) (spawnTimer g) (towers g) (lasers g) (state g)
    (resources g) (currentWave g) (enemiesThisWave g) v (totalKills g).

Definition set_totalKills (g : Game) (v : Z) : Game :=
  mkGame (grid g) (hoverX g) (hoverY g) (hoverValid g) (spawn g) (base g) (path g)
    (pathBlocked g) (enemies g) (spawnTimer g) (towers g) (lasers g) (state g)
    (resources g) (currentWave g) (enemiesThisWave g) (waveDelay g) v.

(** ** Paths of the game and of its enemies *)

Definition recalculatePath (g : Game) : Game :=
  let p := findPath (grid g) (spawn g) (base g) in
  set_path g p (match p with None => true | Some _ => false end).

(** The grid cell under an enemy: [int(e.X) / CellSize], [int(e.Y) / CellSize]. *)
Definition currentCell (e : Enemy) : Point :=
  mkPoint (GoInt.quot (GoFloat.toInt (Enemy_X e)) CellSize)
          (GoInt.quot (GoFloat.toInt (Enemy_Y e)) CellSize).

Definition recalculateEnemy (gr : Grid) (bs : Point) (e : Enemy) : Enemy :=
  match findPath gr (currentCell e) bs with
  | Some newPath => mkEnemy (Enemy_X e) (Enemy_Y e) 1 newPath (HP e)
  | None => e
  end.

Definition recalculateEnemyPaths (g : Game) : Game :=
  set_enemies g (map (recalculateEnemy (grid g) (base g)) (enemies g)).

(** Pixel centre of a cell coordinate: [float64(c*CellSize) + CellSize/2]. *)
Definition center (c : Z) : float :=
  PrimFloat.add (GoFloat.ofInt (GoInt.mul c CellSize)) halfCell.

Definition spawnEnemy (g : Game) : Game :=
  let p := default [] (path g) in
  if pathBlocked g || (length p =? 0)%nat then g
  else
    set_enemies g
      (enemies g ++ [mkEnemy (center (X (spawn g))) (center (Y (spawn g))) 1 p EnemyMaxHP]).

(** ** Economy *)

Definition inGrid (x y : Z) : bool :=
  (0 <=? x) && (x <? GridWidth) && (0 <=? y) && (y <? GridHeight).

(** [addTower]; [None] is the index-out-of-range panic of [g.grid[y][x]],
    which comes after the subtraction. *)
Definition addTower (g : Game) (x y : Z) : option (Game * bool) :=
  if resources g <? TowerCost then Some (g, false)
  else if negb (inGrid x y) then None
  else
    let g := set_resources g (GoInt.sub (resources g) TowerCost) in
    let g := set_grid g (storeTile (grid g) x y TileTower) in
    Some (set_towers g (towers g ++ [mkTower x y 0]), true).

(** The first tower at [(x, y)] is cut out of the slice. *)
Fixpoint cutTower (ts : list Tower) (x y : Z) : list Tower :=
  match ts with
  | [] => []
  | t :: rest =>
      if (Tower_X t =? x) && (Tower_Y t =? y) then rest
      else t :: cutTower rest x y
  end.

Definition removeTower (g : Game) (x y : Z) : option Game :=
  if negb (inGrid x y) then None
  else
    let g := set_grid g (storeTile (grid g) x y TileGround) in
    let g := set_resources g (GoInt.add (resources g) (TowerCost `quot` 2)) in
    Some (set_towers g (cutTower (towers g) x y)).

(** ** The per-tick passes *)

Definition distance (dx dy : float) : float :=
  PrimFloat.sqrt (PrimFloat.add (PrimFloat.mul dx dx) (PrimFloat.mul dy dy)).

(** The movement part of the loop body of [updateEnemies]. *)
Definition moveEnemy (e : Enemy) (target : Point) : Enemy :=
  let targetX := center (X target) in
  let targetY := center (Y target) in
  let dx := PrimFloat.sub targetX (Enemy_X e) in
  let dy := PrimFloat.sub targetY (Enemy_Y e) in
  let dist := distance dx dy in
  if PrimFloat.ltb dist EnemySpeed then
    mkEnemy targetX targetY (GoInt.add (PathIndex e) 1) (Path e) (HP e)
  else
    mkEnemy (PrimFloat.add (Enemy_X e) (PrimFloat.mul (PrimFloat.div dx dist) EnemySpeed))
            (PrimFloat.add (Enemy_Y e) (PrimFloat.mul (PrimFloat.div dy dist) EnemySpeed))
            (PathIndex e) (Path e) (HP e).

(** [for _, e := range g.enemies]: [g] carries the counters and the state
    the loop writes, [alive] the slice being built.  [None] is the panic of
    [e.Path[e.PathIndex]] on a negative index. *)
Fixpoint updateEnemies_loop (es : list Enemy) (g : Game) (alive : list Enemy)
  : option (Game * list Enemy) :=
  match es with
  | [] => Some (g, alive)
  | e :: rest =>
      if PrimFloat.leb (HP e) 0 then
        let g := set_resources g (GoInt.add (resources g) KillReward) in
        let g := set_totalKills g (GoInt.add (totalKills g) 1) in
        updateEnemies_loop rest g alive
      else if Z.of_nat (length (Path e)) <=? PathIndex e then
        updateEnemies_loop rest (set_state g StateLost) alive
      else if PathIndex e <? 0 then None
      else
        match Path e !! Z.to_nat (PathIndex e) with
        | None => None
        | Some target => updateEnemies_loop rest g (alive ++ [moveEnemy e target])
        end
  end.

Definition updateEnemies (g : Game) : option Game :=
  match updateEnemies_loop (enemies g) g [] with
  | Some (g', alive) => Some (set_enemies g' alive)
  | None => None
  end.

(** The target scan of one tower: position and value of the chosen enemy
    so far, and [bestProgress]. *)
Fixpoint pickTarget (es : list Enemy) (i : nat) (towerX towerY : float)
    (target : option (nat * Enemy)) (bestProgress : Z) : option (nat * Enemy) :=
  match es with
  | [] => target
  | e :: rest =>
      if PrimFloat.leb (HP e) 0 then
        pickTarget rest (S i) towerX towerY target bestProgress
      else
        let dx := PrimFloat.sub (Enemy_X e) towerX in
        let dy := PrimFloat.sub (Enemy_Y e) towerY in
        let dist := distance dx dy in
        if PrimFloat.ltb TowerRange dist then
          pickTarget rest (S i) towerX towerY target bestProgress
        else if bestProgress <? PathIndex e then
          pickTarget rest (S i) towerX towerY (Some (i, e)) (PathIndex e)
        else
          pickTarget rest (S i) towerX towerY target bestProgress
  end.

(** The loop body of [updateTowers] for one tower. *)
Definition updateTower (t : Tower) (es : list Enemy) (ls : list Laser)
  : Tower * list Enemy * list Laser :=
  if 0 <? Cooldown t then
    (mkTower (Tower_X t) (Tower_Y t) (GoInt.sub (Cooldown t) 1), es, ls)
  else
    let towerX := center (Tower_X t) in
    let towerY := center (Tower_Y t) in
    match pickTarget es 0 towerX towerY None (-1) with
    | Some (i, target) =>
        let hit := mkEnemy (Enemy_X target) (Enemy_Y target) (PathIndex target)
                           (Path target) (PrimFloat.sub (HP target) TowerDamage) in
        (mkTower (Tower_X t) (Tower_Y t) TowerCooldown,
         <[i := hit]> es,
         ls ++ [mkLaser towerX towerY (Enemy_X target) (Enemy_Y target) LaserDuration])
    | None => (t, es, ls)
    end.

Fixpoint updateTowers_loop (ts : list Tower) (es : list Enemy) (ls : list Laser)
  : list Tower * list Enemy * list Laser :=
  match ts with
  | [] => ([], es, ls)
  | t :: rest =>
      let '(t', es', ls') := updateTower t es ls in
      let '(rest', es'', ls'') := updateTowers_loop rest es' ls' in
      (t' :: rest', es'', ls'')
  end.

Definition updateTowers (g : Game) : Game :=
  let '(ts, es, ls) := updateTowers_loop (towers g) (enemies g) (lasers g) in
  set_lasers (set_enemies (set_towers g ts) es) ls.

Definition updateLasers (g : Game) : Game :=
  let aged := map (fun l => mkLaser (FromX l) (FromY l) (ToX l) (ToY l)
                                    (GoInt.sub (TTL l) 1)) (lasers g) in
  set_lasers g (filter (fun l => 0 < TTL l) aged).

(** ** The tick *)

(** What the tick reads from the engine: the cursor in pixels, the two
    mouse buttons and the R key. *)
Record Input := mkInput {
  cursorX : Z; cursorY : Z;
  leftPressed : bool; rightPressed : bool; keyR : bool
}.

(** The wave block at the head of [Update]. *)
Definition waveStep (g : Game) : Game :=
  if 0 <? waveDelay g then
    set_waveDelay g (GoInt.sub (waveDelay g) 1)
  else if 0 <? enemiesThisWave g then
    let g := set_spawnTimer g (GoInt.sub (spawnTimer g) 1) in
    if spawnTimer g <=? 0 then
      let g := spawnEnemy g in
      let g := set_enemiesThisWave g (GoInt.sub (enemiesThisWave g) 1) in
      set_spawnTimer g SpawnInterval
    else g
  else if (length (enemies g) =? 0)%nat then
    if TotalWaves <=? currentWave g then set_state g StateWon
    else
      let g := set_currentWave g (GoInt.add (currentWave g) 1) in
      let g := set_enemiesThisWave g (GoInt.add EnemiesPerWave (currentWave g)) in
      set_waveDelay g WaveDelay
  else g.

(** The hover block: the cursor cell and whether it lies on the grid. *)
Definition updateHover (g : Game) (inp : Input) : Game :=
  let gx := GoInt.quot (cursorX inp) CellSize in
  let gy := GoInt.quot (cursorY inp) CellSize in
  let valid := (0 <=? gx) && (gx <? GridWidth) && (0 <=? gy) && (gy <? GridHeight) in
  let g := set_hoverValid g valid in
  if valid then set_hover g gx gy else g.

(** [g.grid[y][x]] as a read; [None] is the index-out-of-range panic. *)
Definition readTile (g : Game) (x y : Z) : option TileType :=
  if inGrid x y then Some (tileAt (grid g) x y) else None.

(** The two click branches; the flag is [gridChanged]. *)
Definition applyClicks (g : Game) (inp : Input) : option (Game * bool) :=
  tile ← readTile g (hoverX g) (hoverY g);
  '(g, gridChanged) ←
    (if leftPressed inp && bool_decide (tile = TileGround)
     then addTower g (hoverX g) (hoverY g)
     else Some (g, false));
  if rightPressed inp && bool_decide (tile = TileTower)
  then g ← removeTower g (hoverX g) (hoverY g); Some (g, true)
  else Some (g, gridChanged).

(** The click block of [Update], with the recalculation it triggers. *)
Definition handleClicks (g : Game) (inp : Input) : option Game :=
  if hoverValid g && bool_decide (state g = StatePlaying) then
    match applyClicks g inp with
    | Some (g, gridChanged) =>
        if gridChanged then Some (recalculateEnemyPaths (recalculatePath g))
        else Some g
    | None => None
    end
  else Some g.

(** [Update]; [None] is a run-time panic. *)
Definition Update (g : Game) (inp : Input) : option Game :=
  if negb (bool_decide (state g = StatePlaying)) then
    if keyR inp then Some NewGame else Some g
  else
    let g := waveStep g in
    g ← updateEnemies g;
    let g := updateTowers g in
    let g := updateLasers g in
    let g := updateHover g inp in
    handleClicks g inp.

(** A run of ticks. *)
Fixpoint run (g : Game) (inps : list Input) : option Game :=
  match inps with
  | [] => Some g
  | inp :: rest => g' ← Update g inp; run g' rest
  end.

(** ** Notions used by the statements *)

(** The tower takes a shot in this round of [updateTowers]: its cooldown
    has run out and the scan finds a target. *)
Definition shoots (t : Tower) (es : list Enemy) : bool :=
  if 0 <? Cooldown t then false
  else match pickTarget es 0 (center (Tower_X t)) (center (Tower_Y t)) None (-1) with
       | Some _ => true
       | None => false
       end.

(** An enemy the scan of tower [t] does not skip: health above zero, not
    farther than the range, and a waypoint index above the initial
    [bestProgress]. *)
Definition targetable (t : Tower) (e : Enemy) : Prop :=
  PrimFloat.leb (HP e) 0 = false /\
  PrimFloat.ltb TowerRange
    (distance (PrimFloat.sub (Enemy_X e) (center (Tower_X t)))
              (PrimFloat.sub (Enemy_Y e) (center (Tower_Y t)))) = false /\
  -1 < PathIndex e.

(** The tower after a run of ticks; [ess] lists the enemies it meets in
    each of them. *)
Definition towerAfter (t : Tower) (ess : list (list Enemy)) : Tower :=
  foldl (fun t es => (updateTower t es []).1.1) t ess.

(** Enemies the cleanup at the head of the [updateEnemies] loop body
    removes and credits. *)
Definition isDead (e : Enemy) : bool := PrimFloat.leb (HP e) 0.

Definition deadCount (es : list Enemy) : Z :=
  Z.of_nat (length (List.filter isDead es)).

(** Enemies that [updateEnemies] keeps: not dead and not at the end of
    their path. *)
Definition survives (e : Enemy) : bool :=
  negb (isDead e) && negb (Z.of_nat (length (Path e)) <=? PathIndex e).

(** ** Concrete scenarios *)

Definition idle : Input := mkInput (-100) (-100) false false false.

Definition leftClick (x y : Z) : Input :=
  mkInput (x * CellSize + 5) (y * CellSize + 5) true false false.

Definition rightClick (x y : Z) : Input :=
  mkInput (x * CellSize + 5) (y * CellSize + 5) false true false.

(** An enemy standing on the centre of cell [(x, y)]. *)
Definition enemyAt (x y : Z) (hp : float) (idx : Z) (p : list Point) : Enemy :=
  mkEnemy (center x) (center y) idx p hp.

Definition straightPath : list Point :=
  map (mkPoint 10) (range 1 14).



(** Runs the ticks and tells whether [ok] holds of the state before each
    of them and of the last state; a panic counts as failure. *)
Fixpoint checkRun (ok : Game -> bool) (g : Game) (inps : list Input) : bool :=
  ok g &&
  match inps with
  | [] => true
  | inp :: rest =>
      match Update g inp with
      | Some g' => checkRun ok g' rest
      | None => false
      end
  end.

(** Three towers around the spawn cell (10,1); its fourth neighbour is
    wall. *)
Definition wallIn : list Input := [leftClick 9 1; leftClick 11 1; leftClick 10 2].

(** [NewGame] walled in, at the tick where the pre-wave delay has run
    out. *)
Definition walledIn : Game :=
  default NewGame (run NewGame (wallIn ++ repeat idle 297)).

(** An enemy on cell (10,5), half-way down its 13-cell path (index 5). *)
Definition midway : Enemy := enemyAt 10 5 100 5 straightPath.

(** A game with that one enemy, the cursor over the ground cell (3,3). *)
Definition oneEnemy : Game :=
  {| grid := initialGrid;
     hoverX := 3; hoverY := 3; hoverValid := true;
     spawn := mkPoint 10 1; base := mkPoint 10 13;
     path := Some straightPath; pathBlocked := false;
     enemies := [midway];
     spawnTimer := 40;
     towers := []; lasers := [];
     state := StatePlaying;
     resources := StartingResource;
     currentWave := 1;
     enemiesThisWave := 4;
     waveDelay := 0;
     totalKills := 0 |}.

(** The grid of the specification's scenario: ground inside a ring of
    wall, spawn at (10,1), base at (10,13). *)
Definition ringGrid : Grid :=
  let g := foldl (fun g y => foldl (fun g x => storeTile g x y TileGround) g
                                   (range 0 GridWidth)) ∅ (range 0 GridHeight) in
  let g := foldl (fun g x => storeTile (storeTile g x 0 TileWall)
                                       x (GridHeight - 1) TileWall)
                 g (range 0 GridWidth) in
  let g := foldl (fun g y => storeTile (storeTile g 0 y TileWall)
                                       (GridWidth - 1) y TileWall)
                 g (range 0 GridHeight) in
  let g := storeTile g 10 13 TileBase in
  storeTile g 10 1 TileSpawn.

(** ** The ledger *)

(** Every cell of the grid, column by column. *)
Definition allCells : list Point :=
  x ← range 0 GridWidth; (mkPoint x) <$> range 0 GridHeight.

(** Number of tower tiles on the grid. *)
Definition towerTiles (gr : Grid) : Z :=
  foldr (fun p n => (if decide (tileAt gr (X p) (Y p) = TileTower) then 1 else 0) + n)
        0 allCells.

(** Enemies of the waves after wave [w]: wave [v] has [EnemiesPerWave + v]
    of them. *)
Definition futureSpawns (w : Z) : Z :=
  foldr Z.add 0 ((fun v => EnemiesPerWave + v) <$> range (w + 1) (TotalWaves + 1)).

(** What the ledger can still come to: the resources, the price of the
    towers standing, and a reward for every enemy alive or still to
    come. *)
Definition potential (g : Game) : Z :=
  resources g + TowerCost * towerTiles (grid g)
  + KillReward * (enemiesThisWave g + futureSpawns (currentWave g)
                  + Z.of_nat (length (enemies g))).

Definition ledgerInv (g : Game) : Prop :=
  0 <= resources g /\ 0 <= enemiesThisWave g /\
  1 <= currentWave g <= TotalWaves /\
  potential g <= StartingResource + KillReward * (EnemiesPerWave + futureSpawns 1).

(** States a new game can get to by ticks; the inputs of a tick carry the
    placement, removal and reset commands. *)
Inductive reachable : Game -> Prop :=
  | reachable_new : reachable NewGame
  | reachable_tick g inp g' :
      reachable g -> Update g inp = Some g' -> reachable g'.

(** How one tick may change the resource counter: outside the playing
    state not at all, unless the game is rebuilt; in the playing state by
    the reward for each enemy that was dead when the tick began, by the
    cost of a tower placed (which the resources then covered) and by the
    refund for a tower removed. *)
Definition ledgerStep (g g' : Game) : Prop :=
  (state g <> StatePlaying /\ (g' = g \/ g' = NewGame)) \/
  (state g = StatePlaying /\
   exists placed removed : bool,
     let credited := resources g + KillReward * deadCount (enemies g) in
     resources g' = credited - (if placed then TowerCost else 0)
                             + (if removed then TowerCost `quot` 2 else 0) /\
     (placed = true -> TowerCost <= credited) /\
     (placed = true -> removed = false)).

(** ** Queue contents and heap order *)

(** What the search reads of a queue entry. *)
Definition itemKey (it : pqItem) : Point * Z := (point it, priority it).

(** Priority at a position. *)
Definition pr (h : priorityQueue) (k : nat) : Z :=
  match h !! k with Some it => priority it | None => 0 end.

(** No entry has a smaller priority than its parent. *)
Definition heapOrdered (h : priorityQueue) : Prop :=
  forall k, (0 < k < length h)%nat -> pr h ((k - 1) / 2) <= pr h k.

(** Exchange of two positions. *)
Definition transpose (i j k : nat) : nat :=
  if decide (k = i) then j else if decide (k = j) then i else k.

(** Heap order everywhere except between [j] and its parent; the children
    of [j] already respect the parent of [j]. *)
Definition upInv (h : priorityQueue) (j : nat) : Prop :=
  (forall k, (0 < k < length h)%nat -> k <> j -> pr h ((k - 1) / 2) <= pr h k) /\
  (forall k, (0 < k < length h)%nat -> ((k - 1) / 2 = j)%nat -> (0 < j)%nat ->
     pr h ((j - 1) / 2) <= pr h k).

(** Heap order among the first [n] entries except below [i]; the children
    of [i] already respect the parent of [i]. *)
Definition downInv (h : priorityQueue) (i n : nat) : Prop :=
  (forall k, (0 < k < n)%nat -> ((k - 1) / 2)%nat <> i ->
     pr h ((k - 1) / 2) <= pr h k) /\
  (forall k, (0 < k < n)%nat -> ((k - 1) / 2 = i)%nat -> (0 < i)%nat ->
     pr h ((i - 1) / 2) <= pr h k).

(** ** Chains of cells *)

(** Coordinates a Go [int] can hold. *)
Definition wfPoint (p : Point) : Prop :=
  GoInt.inRange (X p) /\ GoInt.inRange (Y p).

Definition walkable (g : Grid) (p : Point) : Prop :=
  isWalkable g (X p) (Y p) = true.

(** 4-adjacency: one step along one axis. *)
Definition adjacent (p q : Point) : Prop :=
  Z.abs (X p - X q) + Z.abs (Y p - Y q) = 1.

(** Each cell is adjacent to the one before it and, the first apart,
    walkable. *)
Fixpoint steps (g : Grid) (l : list Point) : Prop :=
  match l with
  | p :: (q :: _) as rest => adjacent p q /\ walkable g q /\ steps g rest
  | _ => True
  end.

(** A chain from [a] to [b]: what the search can follow. *)
Definition chain (g : Grid) (a b : Point) (l : list Point) : Prop :=
  head l = Some a /\ last l = Some b /\ steps g l.

(** The widest reading of "walkable chain": consecutive cells adjacent,
    walkability asked of the cells strictly between the two ends only. *)
Definition looseChain (g : Grid) (a b : Point) (l : list Point) : Prop :=
  head l = Some a /\ last l = Some b /\
  (forall i p q, l !! i = Some p -> l !! S i = Some q -> adjacent p q) /\
  (forall i p, l !! i = Some p -> (0 < i)%nat -> (S i < length l)%nat ->
     walkable g p).

(** The narrowest reading: every cell walkable, the ends included. *)
Definition strictChain (g : Grid) (a b : Point) (l : list Point) : Prop :=
  head l = Some a /\ last l = Some b /\
  (forall i p q, l !! i = Some p -> l !! S i = Some q -> adjacent p q) /\
  (forall p, p ∈ l -> walkable g p).

(** ** Invariants of the search *)

(** One move of the search: a direction added in Go's arithmetic. *)
Definition hop (p q : Point) : Prop :=
  exists d, d ∈ dirs /\ q = neighborOf p d.

Definition gval (s : Search) (p : Point) : Z := default 0 (gScore s !! p).

(** What holds of the two maps and of the queue at every point of the
    loop. *)
Record SearchInv (g : Grid) (start : Point) (s : Search) : Prop := {
  inv_start : gScore s !! start = Some 0;
  inv_root : cameFrom s !! start = None;
  inv_parent : forall n p, cameFrom s !! n = Some p ->
    walkable g n /\ hop p n /\
    exists gp gn, gScore s !! p = Some gp /\ gScore s !! n = Some gn /\ gp + 1 <= gn;
  inv_dom : forall n gn, gScore s !! n = Some gn ->
    n = start \/ is_Some (cameFrom s !! n);
  inv_bound : forall n gn, gScore s !! n = Some gn ->
    0 <= gn < Z.of_nat (size (gScore s));
  inv_open : forall k, k ∈ (itemKey <$> openSet s) -> is_Some (gScore s !! k.1)
}.

(** The score a cell without one counts for. *)
Definition noScore : Z := GridWidth * GridHeight + 1.

(** Sum of the scores over the grid; every queue entry pushed lowers it. *)
Definition slack (s : Search) : Z :=
  foldr (fun c n => default noScore (gScore s !! c) + n) 0 allCells.

(** The measure that bounds the rounds of the loop. *)
Definition roundsLeft (s : Search) : Z :=
  2 * slack s + Z.of_nat (length (openSet s)).

(** The estimate an entry of the queue was pushed with: zero for the
    start, the Manhattan distance to the goal for any other cell. *)
Definition est (start goal n : Point) : Z :=
  if decide (n = start) then 0 else heuristic n goal.

Definition manhattan (p q : Point) : Z :=
  Z.abs (X p - X q) + Z.abs (Y p - Y q).

(** The walkable neighbours of [n] in the directions [ds] have a score,
    at most one above that of [n]. *)
Definition settled (g : Grid) (s : Search) (n : Point) (ds : list Point) : Prop :=
  forall d, d ∈ ds -> walkable g (neighborOf n d) ->
    exists gm, gScore s !! neighborOf n d = Some gm /\ gm <= gval s n + 1.

(** What the queue holds for the cells with a score, while [cur] is being
    expanded and the directions [done] are through. *)
Record FrontierInv (g : Grid) (start goal : Point) (s : Search)
    (cur : Point) (done : list Point) : Prop := {
  fr_pending : forall n gn, gScore s !! n = Some gn ->
    (exists k, k ∈ (itemKey <$> openSet s) /\ k.1 = n /\
               k.2 <= gn + est start goal n) \/
    settled g s n (if decide (n = cur) then done else dirs);
  fr_lower : forall k, k ∈ (itemKey <$> openSet s) ->
    exists gn, gScore s !! k.1 = Some gn /\ gn + est start goal k.1 <= k.2;
  fr_heap : heapOrdered (openSet s);
  fr_goal : is_Some (gScore s !! goal) ->
    exists k, k ∈ (itemKey <$> openSet s) /\ k.1 = goal
}.

(** A path as [reconstruct] builds it: moves of the search into walkable
    cells, scores strictly rising. *)
Fixpoint trail (g : Grid) (s : Search) (l : list Point) : Prop :=
  match l with
  | p :: (q :: _) as rest =>
      hop p q /\ walkable g q /\ gval s p < gval s q /\ trail g s rest
  | _ => True
  end.

(** The state after a push in [visit]. *)
Definition pushed (goal cur : Point) (s : Search) (d : Point) (gc : Z) : Search :=
  let nb := neighborOf cur d in
  mkSearch (heap.Push (openSet s)
              (mkItem nb (GoInt.add (gc + 1) (heuristic nb goal)) 0))
           (<[nb := cur]> (cameFrom s)) (<[nb := gc + 1]> (gScore s)).

(** * Properties *)

(** ** Integer wrap-around *)

Lemma wrap_id z : GoInt.inRange z -> GoInt.wrap z = z.
Proof.
  unfold GoInt.inRange, GoInt.minInt, GoInt.maxInt, GoInt.wrap. intros H.
  rewrite Z.mod_small; lia.
Qed.

Lemma wrap_inRange z : GoInt.inRange (GoInt.wrap z).
Proof.
  unfold GoInt.inRange, GoInt.minInt, GoInt.maxInt, GoInt.wrap.
  pose proof (Z.mod_pos_bound (z + 2 ^ 63) (2 ^ 64) ltac:(lia)). lia.
Qed.

Lemma wrap_add_l a b : GoInt.wrap (GoInt.wrap a + b) = GoInt.wrap (a + b).
Proof.
  unfold GoInt.wrap. f_equal.
  replace ((a + 2 ^ 63) mod 2 ^ 64 - 2 ^ 63 + b + 2 ^ 63)
    with ((a + 2 ^ 63) mod 2 ^ 64 + b) by lia.
  rewrite Zplus_mod_idemp_l. f_equal. lia.
Qed.

Lemma add_small a b :
  GoInt.minInt <= a + b <= GoInt.maxInt -> GoInt.add a b = a + b.
Proof. intros. unfold GoInt.add. by apply wrap_id. Qed.

Lemma sub_small a b :
  GoInt.minInt <= a - b <= GoInt.maxInt -> GoInt.sub a b = a - b.
Proof. intros. unfold GoInt.sub. by apply wrap_id. Qed.

(** ** Economy: rejected edits and the place/remove round trip *)




Lemma tileAt_lookup gr x y t :
  t <> TileEmpty -> tileAt gr x y = t -> gr !! mkPoint x y = Some t.
Proof.
  unfold tileAt. destruct (gr !! mkPoint x y); simpl; congruence.
Qed.

(** C8: on a ground cell of the grid, with resources of at least the tower
    cost, [addTower] succeeds, [removeTower] right after it gives back the
    grid exactly as it was (so the cell is ground again), and the resources
    are the starting value minus the cost plus the refund, the refund (half
    the cost, rounded down) being strictly less than the cost. *)
Theorem place_then_remove_restores (g : Game) (x y : Z) :
  inGrid x y = true ->
  tileAt (grid g) x y = TileGround ->
  TowerCost <= resources g ->
  GoInt.inRange (resources g) ->
  exists g1 g2,
    addTower g x y = Some (g1, true) /\
    removeTower g1 x y = Some g2 /\
    tileAt (grid g1) x y = TileTower /\
    grid g2 = grid g /\
    tileAt (grid g2) x y = tileAt (grid g) x y /\
    resources g2 = resources g - TowerCost + TowerCost `quot` 2 /\
    TowerCost `quot` 2 < TowerCost.
Proof.
  intros Hin Hg Hres Hrange.
  unfold addTower, removeTower.
  destruct (Z.ltb_spec (resources g) TowerCost); [lia|].
  rewrite Hin. simpl. eexists _, _. split; [reflexivity|].
  split; [reflexivity|]. simpl.
  assert (Hgrid : storeTile (storeTile (grid g) x y TileTower) x y TileGround = grid g).
  { unfold storeTile. rewrite insert_insert_eq. apply insert_id.
    by apply tileAt_lookup. }
  split; [|split; [done|split; [by rewrite Hgrid|]]].
  - unfold tileAt, storeTile. by rewrite lookup_insert_eq.
  - unfold GoInt.inRange, GoInt.minInt, GoInt.maxInt, TowerCost in *.
    split; [|by vm_compute].
    change (25 `quot` 2) with 12.
    rewrite sub_small by (unfold GoInt.minInt, GoInt.maxInt; lia).
    rewrite add_small by (unfold GoInt.minInt, GoInt.maxInt; lia). done.
Qed.

Lemma place_then_remove_restores_witness :
  exists g1 g2,
    addTower NewGame 3 3 = Some (g1, true) /\
    removeTower g1 3 3 = Some g2 /\
    tileAt (grid g1) 3 3 = TileTower /\
    grid g2 = grid NewGame /\
    tileAt (grid g2) 3 3 = tileAt (grid NewGame) 3 3 /\
    resources g2 = resources NewGame - TowerCost + TowerCost `quot` 2 /\
    TowerCost `quot` 2 < TowerCost.
Proof.
  apply (place_then_remove_restores NewGame 3 3).
  - reflexivity.
  - vm_compute. reflexivity.
  - vm_compute. discriminate.
  - vm_compute. split; discriminate.
Defined.

(** The same round trip through two ticks of a new game: a left click on
    the ground cell (3,3), then a right click on it. *)
Example place_remove_by_clicks :
  ((fun g => (tileAt (grid g) 3 3, resources g, towers g)) <$>
     run NewGame [leftClick 3 3])
  = Some (TileTower, 75, [mkTower 3 3 0]) /\
  ((fun g => (tileAt (grid g) 3 3, resources g, towers g)) <$>
     run NewGame [leftClick 3 3; rightClick 3 3])
  = Some (TileGround, 87, []).
Proof. vm_compute. split; reflexivity. Qed.

(** ** Tower cooldown *)

Lemma shoots_cooling t es : 0 < Cooldown t -> shoots t es = false.
Proof.
  intros H. unfold shoots. destruct (Z.ltb_spec 0 (Cooldown t)); [done | lia].
Qed.

Lemma updateTower_cooling t es ls :
  0 < Cooldown t ->
  updateTower t es ls
  = (mkTower (Tower_X t) (Tower_Y t) (GoInt.sub (Cooldown t) 1), es, ls).
Proof.
  intros H. unfold updateTower.
  destruct (Z.ltb_spec 0 (Cooldown t)); [done | lia].
Qed.

Lemma updateTower_shot t es ls :
  shoots t es = true ->
  (updateTower t es ls).1.1 = mkTower (Tower_X t) (Tower_Y t) TowerCooldown /\
  length (updateTower t es ls).2 = S (length ls).
Proof.
  unfold shoots, updateTower. destruct (0 <? Cooldown t); [done|].
  destruct (pickTarget _ _ _ _ _ _) as [[i e]|]; [|done].
  intros _. simpl. rewrite length_app. simpl. split; [done | lia].
Qed.

Lemma updateTower_no_shot t es ls :
  shoots t es = false ->
  (updateTower t es ls).1.2 = es /\ (updateTower t es ls).2 = ls.
Proof.
  unfold shoots, updateTower. destruct (0 <? Cooldown t); [done|].
  by destruct (pickTarget _ _ _ _ _ _) as [[i e]|].
Qed.

(** A scan that ends without a target started without one and met no
    enemy it could have chosen. *)
Lemma pickTarget_None es : forall i x y tgt b,
  pickTarget es i x y tgt b = None ->
  tgt = None /\
  forall e, e ∈ es ->
    ~ (PrimFloat.leb (HP e) 0 = false /\
       PrimFloat.ltb TowerRange
         (distance (PrimFloat.sub (Enemy_X e) x) (PrimFloat.sub (Enemy_Y e) y)) = false /\
       b < PathIndex e).
Proof.
  induction es as [|e es IH]; intros i x y tgt b; simpl.
  - intros ->. split; [done|]. intros e He. by apply elem_of_nil in He.
  - destruct (PrimFloat.leb (HP e) 0) eqn:Ehp.
    { intros H. destruct (IH _ _ _ _ _ H) as [-> Hall]. split; [done|].
      intros e' [->|He']%elem_of_cons; [|by apply Hall].
      intros (? & _). congruence. }
    destruct (PrimFloat.ltb TowerRange _) eqn:Er.
    { intros H. destruct (IH _ _ _ _ _ H) as [-> Hall]. split; [done|].
      intros e' [->|He']%elem_of_cons; [|by apply Hall].
      intros (_ & ? & _). congruence. }
    destruct (Z.ltb_spec b (PathIndex e)) as [Hlt|Hge].
    { intros H. by destruct (IH _ _ _ _ _ H) as [? _]. }
    intros H. destruct (IH _ _ _ _ _ H) as [-> Hall]. split; [done|].
    intros e' [->|He']%elem_of_cons; [|by apply Hall].
    intros (_ & _ & ?). lia.
Qed.

Lemma shoots_ready t es e :
  Cooldown t <= 0 -> e ∈ es -> targetable t e -> shoots t es = true.
Proof.
  intros Hc He Ht. unfold shoots.
  destruct (Z.ltb_spec 0 (Cooldown t)); [lia|].
  destruct (pickTarget _ _ _ _ _ _) eqn:Ep; [done|].
  apply pickTarget_None in Ep as [_ Hall]. by destruct (Hall e He).
Qed.

Lemma towerAfter_snoc t ess es :
  towerAfter t (ess ++ [es]) = (updateTower (towerAfter t ess) es []).1.1.
Proof. unfold towerAfter. by rewrite foldl_app. Qed.

(** While the cooldown lasts, each tick takes one off it and nothing else
    changes. *)
Lemma towerAfter_countdown ess : forall t,
  Z.of_nat (length ess) <= Cooldown t <= TowerCooldown ->
  towerAfter t ess
  = mkTower (Tower_X t) (Tower_Y t) (Cooldown t - Z.of_nat (length ess)).
Proof.
  induction ess as [|es ess IH] using rev_ind; intros t Hc.
  - simpl. destruct t; simpl. f_equal. lia.
  - rewrite length_app in Hc |- *. simpl in Hc |- *.
    rewrite towerAfter_snoc, IH by lia.
    rewrite updateTower_cooling by (simpl; lia). simpl. f_equal.
    unfold TowerCooldown in Hc.
    rewrite sub_small by (unfold GoInt.minInt, GoInt.maxInt; lia). lia.
Qed.

(** C3 (amended): after a shot the cooldown is [TowerCooldown] = 30; in
    each of the next 30 ticks the tower takes no shot, whatever enemies are
    around: it only counts down and leaves enemies and lasers as they are;
    in the 31st tick after the shot it shoots when an enemy it can target
    is there, adding a laser and starting the cooldown again. *)
Theorem tower_cooldown_period (t : Tower) (es0 : list Enemy) :
  shoots t es0 = true ->
  let t1 := (updateTower t es0 []).1.1 in
  Cooldown t1 = TowerCooldown /\
  (forall ess es ls, (length ess < 30)%nat ->
     shoots (towerAfter t1 ess) es = false /\
     updateTower (towerAfter t1 ess) es ls = (towerAfter t1 (ess ++ [es]), es, ls)) /\
  (forall ess es e ls, length ess = 30%nat -> e ∈ es -> targetable t e ->
     shoots (towerAfter t1 ess) es = true /\
     Cooldown (updateTower (towerAfter t1 ess) es ls).1.1 = TowerCooldown /\
     length (updateTower (towerAfter t1 ess) es ls).2 = S (length ls)).
Proof.
  intros Hs t1.
  destruct (updateTower_shot t es0 [] Hs) as [Ht1 _]. fold t1 in Ht1.
  assert (Hrun : forall ess, (length ess <= 30)%nat ->
            towerAfter t1 ess
            = mkTower (Tower_X t) (Tower_Y t) (30 - Z.of_nat (length ess))).
  { intros ess Hlen.
    rewrite towerAfter_countdown by (rewrite Ht1; simpl; unfold TowerCooldown; lia).
    by rewrite Ht1. }
  split; [by rewrite Ht1|]. split.
  - intros ess es ls Hlen.
    assert (Hcool : shoots (towerAfter t1 ess) es = false).
    { apply shoots_cooling. rewrite Hrun by lia. simpl. lia. }
    split; [done|].
    destruct (updateTower_no_shot _ es ls Hcool) as [He Hl].
    rewrite towerAfter_snoc.
    rewrite !updateTower_cooling by (rewrite Hrun by lia; simpl; lia).
    done.
  - intros ess es e ls Hlen He Htg.
    assert (Hready : shoots (towerAfter t1 ess) es = true).
    { apply shoots_ready with e; [|done|].
      - rewrite Hrun by lia. simpl. lia.
      - rewrite Hrun by lia. exact Htg. }
    split; [done|].
    destruct (updateTower_shot _ es ls Hready) as [-> Hl]. done.
Qed.

Lemma tower_cooldown_period_witness :
  let t := mkTower 9 3 0 in
  let es0 := [enemyAt 10 2 100 2 straightPath] in
  let t1 := (updateTower t es0 []).1.1 in
  Cooldown t1 = TowerCooldown /\
  (forall ess es ls, (length ess < 30)%nat ->
     shoots (towerAfter t1 ess) es = false /\
     updateTower (towerAfter t1 ess) es ls = (towerAfter t1 (ess ++ [es]), es, ls)) /\
  (forall ess es e ls, length ess = 30%nat -> e ∈ es -> targetable t e ->
     shoots (towerAfter t1 ess) es = true /\
     Cooldown (updateTower (towerAfter t1 ess) es ls).1.1 = TowerCooldown /\
     length (updateTower (towerAfter t1 ess) es ls).2 = S (length ls)).
Proof.
  apply (tower_cooldown_period (mkTower 9 3 0) [enemyAt 10 2 100 2 straightPath]).
  vm_compute. reflexivity.
Defined.

(** C3 as stated fails: with the enemy in range all the time, the tower
    that has just shot does not shoot in the 30th tick after the shot (its
    cooldown only reaches zero there); it shoots in the 31st. *)
Lemma tower_idle_on_30th_tick :
  let t := mkTower 9 3 0 in
  let es := [enemyAt 10 2 100 2 straightPath] in
  let t1 := (updateTower t es []).1.1 in
  targetable t (enemyAt 10 2 100 2 straightPath) /\
  shoots t es = true /\
  shoots (towerAfter t1 (repeat es 29)) es = false /\
  towerAfter t1 (repeat es 30) = mkTower 9 3 0 /\
  shoots (towerAfter t1 (repeat es 30)) es = true.
Proof. vm_compute. repeat split; reflexivity. Qed.

(** ** Order of the passes within a tick *)

Lemma deadCount_cons e es :
  deadCount (e :: es) = (if isDead e then 1 else 0) + deadCount es.
Proof.
  unfold deadCount. simpl. destruct (isDead e); simpl; lia.
Qed.

Lemma deadCount_nonneg es : 0 <= deadCount es.
Proof. unfold deadCount. lia. Qed.

Lemma deadCount_app es1 es2 :
  deadCount (es1 ++ es2) = deadCount es1 + deadCount es2.
Proof.
  unfold deadCount. rewrite List.filter_app, length_app. lia.
Qed.

(** What the loop of [updateEnemies] does to the counters and to the
    slice it builds. *)
Lemma updateEnemies_loop_spec es : forall g alive g' alive',
  updateEnemies_loop es g alive = Some (g', alive') ->
  GoInt.wrap (resources g') = GoInt.wrap (resources g + KillReward * deadCount es) /\
  GoInt.wrap (totalKills g') = GoInt.wrap (totalKills g + deadCount es) /\
  length alive' = (length alive + length (List.filter survives es))%nat /\
  (Forall (fun e => isDead e = true) es -> state g' = state g /\ alive' = alive) /\
  grid g' = grid g /\ towers g' = towers g /\ lasers g' = lasers g /\
  currentWave g' = currentWave g /\ enemiesThisWave g' = enemiesThisWave g /\
  waveDelay g' = waveDelay g /\ spawn g' = spawn g /\ base g' = base g.
Proof.
  induction es as [|e es IH]; intros g alive g' alive'; simpl.
  - intros [= <- <-]. unfold deadCount. simpl. rewrite Z.mul_0_r, !Z.add_0_r.
    repeat split; auto with lia.
  - rewrite deadCount_cons. unfold survives, isDead.
    destruct (PrimFloat.leb (HP e) 0) eqn:Ehp; simpl.
    { intros H. apply IH in H as (Hr & Hk & Hl & Hd & Hrest). simpl in *.
      split; [|split; [|split; [done|split; [|done]]]].
      - rewrite Hr. unfold GoInt.add. rewrite wrap_add_l. f_equal. lia.
      - rewrite Hk. unfold GoInt.add. rewrite wrap_add_l. f_equal. lia.
      - intros Hall. apply Forall_cons in Hall as [_ Hall]. by apply Hd. }
    destruct (Z.leb_spec (Z.of_nat (length (Path e))) (PathIndex e)) as [Hle|Hgt]; simpl.
    { intros H. apply IH in H as (Hr & Hk & Hl & Hd & Hrest). simpl in *.
      split; [by rewrite Hr|]. split; [by rewrite Hk|]. split; [done|].
      split; [|done].
      intros Hall. apply Forall_cons in Hall as [He _].
      unfold isDead in He. congruence. }
    destruct (PathIndex e <? 0); [done|].
    destruct (Path e !! Z.to_nat (PathIndex e)) as [target|]; [|done].
    intros H. apply IH in H as (Hr & Hk & Hl & Hd & Hrest).
    split; [by rewrite Hr|]. split; [by rewrite Hk|].
    split; [unfold survives, isDead in Hl; rewrite Hl, length_app; simpl; lia|].
    split; [|done].
    intros Hall. apply Forall_cons in Hall as [He _].
    unfold isDead in He. congruence.
Qed.



Lemma updateTowers_loop_length ts : forall es ls,
  length (updateTowers_loop ts es ls).1.2 = length es.
Proof.
  induction ts as [|t ts IH]; intros es ls; simpl; [done|].
  destruct (updateTower t es ls) as [[t' es'] ls'] eqn:Et.
  specialize (IH es' ls').
  destruct (updateTowers_loop ts es' ls') as [[ts'' es''] ls'']. simpl in *.
  rewrite IH. unfold updateTower in Et.
  destruct (0 <? Cooldown t); [by injection Et as <- <- <-|].
  destruct (pickTarget _ _ _ _ _ _) as [[i e]|]; injection Et as <- <- <-;
    [by rewrite length_insert | done].
Qed.

(** The tower pass removes no enemy and credits nothing. *)
Lemma updateTowers_frame g :
  length (enemies (updateTowers g)) = length (enemies g) /\
  resources (updateTowers g) = resources g /\
  totalKills (updateTowers g) = totalKills g /\
  state (updateTowers g) = state g /\
  currentWave (updateTowers g) = currentWave g /\
  enemiesThisWave (updateTowers g) = enemiesThisWave g /\
  waveDelay (updateTowers g) = waveDelay g /\
  grid (updateTowers g) = grid g.
Proof.
  unfold updateTowers.
  pose proof (updateTowers_loop_length (towers g) (enemies g) (lasers g)) as H.
  destruct (updateTowers_loop _ _ _) as [[ts es] ls]. simpl in *. done.
Qed.


(** What the click block leaves alone, and that it cannot panic once the
    hover block has run. *)
Lemma applyClicks_frame g inp g' b :
  applyClicks g inp = Some (g', b) ->
  state g' = state g /\ enemies g' = enemies g /\
  totalKills g' = totalKills g /\ currentWave g' = currentWave g /\
  enemiesThisWave g' = enemiesThisWave g /\ waveDelay g' = waveDelay g /\
  spawn g' = spawn g /\ base g' = base g /\
  hoverX g' = hoverX g /\ hoverY g' = hoverY g.
Proof.
  unfold applyClicks. destruct (readTile _ _ _) as [tile|]; [|done]. simpl.
  set (r1 := if leftPressed inp && bool_decide (tile = TileGround)
             then addTower g (hoverX g) (hoverY g) else Some (g, false)).
  assert (H1 : forall g1 b1, r1 = Some (g1, b1) ->
     state g1 = state g /\ enemies g1 = enemies g /\
     totalKills g1 = totalKills g /\ currentWave g1 = currentWave g /\
     enemiesThisWave g1 = enemiesThisWave g /\ waveDelay g1 = waveDelay g /\
     spawn g1 = spawn g /\ base g1 = base g /\
     hoverX g1 = hoverX g /\ hoverY g1 = hoverY g).
  { intros g1 b1. unfold r1, addTower.
    destruct (_ && _); [|by intros [= <- <-]].
    destruct (_ <? _); [by intros [= <- <-]|].
    destruct (negb _); [done|]. by intros [= <- <-]. }
  destruct r1 as [[g1 b1]|]; [|done]. simpl.
  specialize (H1 g1 b1 eq_refl).
  destruct (_ && _).
  - unfold removeTower. destruct (negb _); [done|]. simpl.
    intros [= <- <-]. simpl. done.
  - by intros [= <- <-].
Qed.




Lemma updateHover_frame g inp :
  state (updateHover g inp) = state g /\
  enemies (updateHover g inp) = enemies g /\
  totalKills (updateHover g inp) = totalKills g /\
  currentWave (updateHover g inp) = currentWave g /\
  enemiesThisWave (updateHover g inp) = enemiesThisWave g /\
  waveDelay (updateHover g inp) = waveDelay g /\
  resources (updateHover g inp) = resources g /\
  grid (updateHover g inp) = grid g.
Proof. unfold updateHover. by destruct (_ && _). Qed.

Lemma spawnEnemy_dead g : deadCount (enemies (spawnEnemy g)) = deadCount (enemies g).
Proof.
  unfold spawnEnemy. destruct (_ || _); [done|]. simpl.
  rewrite deadCount_app. unfold deadCount at 2. simpl.
  change (isDead _) with false. simpl. lia.
Qed.

Lemma waveStep_frame g :
  deadCount (enemies (waveStep g)) = deadCount (enemies g) /\
  resources (waveStep g) = resources g /\
  totalKills (waveStep g) = totalKills g /\
  grid (waveStep g) = grid g.
Proof.
  unfold waveStep.
  destruct (0 <? waveDelay g); [done|].
  destruct (0 <? enemiesThisWave g).
  - simpl. destruct (_ <=? 0); [|done]. simpl.
    rewrite spawnEnemy_dead. simpl. unfold spawnEnemy.
    by destruct (_ || _).
  - destruct (_ =? _)%nat; [|done]. by destruct (_ <=? _).
Qed.

Lemma Update_playing g inp :
  state g = StatePlaying ->
  Update g inp =
  match updateEnemies (waveStep g) with
  | Some g1 => handleClicks (updateHover (updateLasers (updateTowers g1)) inp) inp
  | None => None
  end.
Proof.
  intros Hs. unfold Update. rewrite Hs. simpl.
  by destruct (updateEnemies (waveStep g)).
Qed.





(** ** Winning *)







(** ** Spawning onto a blocked path *)

(** C10: when the spawn timer runs out while the reference path is blocked
    or empty, the wave block creates no enemy, yet takes one off the
    wave's remaining-to-spawn count and resets the spawn timer; nothing
    makes up for it later: walled in at the spawn cell, the first wave of
    a new game is over after 462 ticks (the wave counter reads 2) without
    an enemy in any state on the way and without a kill. *)
Theorem blocked_spawn_uses_up_the_slot (g : Game) :
  waveDelay g <= 0 ->
  0 < enemiesThisWave g <= GoInt.maxInt ->
  GoInt.sub (spawnTimer g) 1 <= 0 ->
  pathBlocked g = true \/ default [] (path g) = [] ->
  (enemies (waveStep g) = enemies g /\
   enemiesThisWave (waveStep g) = enemiesThisWave g - 1 /\
   spawnTimer (waveStep g) = SpawnInterval) /\
  (checkRun (fun g => bool_decide (enemies g = [])) NewGame
            (wallIn ++ repeat idle 459) = true /\
   (currentWave <$> run NewGame (wallIn ++ repeat idle 458)) = Some 1 /\
   (currentWave <$> run NewGame (wallIn ++ repeat idle 459)) = Some 2 /\
   (totalKills <$> run NewGame (wallIn ++ repeat idle 459)) = Some 0).
Proof.
  intros Hd [Hn Hn'] Ht Hp. split.
  - unfold waveStep.
    destruct (Z.ltb_spec 0 (waveDelay g)) as [?|_]; [lia|].
    destruct (Z.ltb_spec 0 (enemiesThisWave g)) as [_|?]; [|lia].
    simpl. destruct (Z.leb_spec (GoInt.sub (spawnTimer g) 1) 0) as [_|?]; [|lia].
    simpl.
    assert (Hsp : forall g0, pathBlocked g0 = pathBlocked g -> path g0 = path g ->
                    spawnEnemy g0 = g0).
    { intros g0 Hb Hpa. unfold spawnEnemy. rewrite Hb, Hpa.
      destruct Hp as [-> | ->]; [done|]. simpl. by rewrite orb_true_r. }
    rewrite Hsp by done. simpl. split; [done|]. split; [|done].
    apply sub_small. unfold GoInt.minInt, GoInt.maxInt in *. lia.
  - vm_compute. repeat split; reflexivity.
Qed.

Lemma blocked_spawn_uses_up_the_slot_witness :
  (enemies (waveStep walledIn) = enemies walledIn /\
   enemiesThisWave (waveStep walledIn) = enemiesThisWave walledIn - 1 /\
   spawnTimer (waveStep walledIn) = SpawnInterval) /\
  (checkRun (fun g => bool_decide (enemies g = [])) NewGame
            (wallIn ++ repeat idle 459) = true /\
   (currentWave <$> run NewGame (wallIn ++ repeat idle 458)) = Some 1 /\
   (currentWave <$> run NewGame (wallIn ++ repeat idle 459)) = Some 2 /\
   (totalKills <$> run NewGame (wallIn ++ repeat idle 459)) = Some 0).
Proof.
  apply (blocked_spawn_uses_up_the_slot walledIn).
  - vm_compute. discriminate.
  - vm_compute. split; [reflexivity | discriminate].
  - vm_compute. discriminate.
  - left. vm_compute. reflexivity.
Defined.

(** ** Reaction to a grid edit *)





(** An enemy on the centre of a grid cell is over that cell, for every
    cell of the grid. *)
Example currentCell_of_center :
  forallb (fun p => bool_decide (currentCell (enemyAt (X p) (Y p) 100 1 []) = p))
          allCells = true.
Proof. by vm_compute. Qed.

(** The scenario of the specification, on [oneEnemy]: the enemy is at
    waypoint index 5 of its 13-cell path; after the edit its path is the 9
    cells from the cell under it to the base and its index is 1. *)
Example grid_edit_resets_waypoint_index :
  currentCell midway = mkPoint 10 5 /\
  (map (fun e => (PathIndex e, length (Path e))) <$>
     (enemies <$> handleClicks oneEnemy (leftClick 3 3)))
  = Some [(1, 9%nat)].
Proof. vm_compute. split; reflexivity. Qed.

(** ** The resource counter *)

Lemma elem_of_allCells x y : inGrid x y = true -> mkPoint x y ∈ allCells.
Proof.
  unfold inGrid, allCells, range, GridWidth, GridHeight. intros H.
  apply list_elem_of_bind. exists x. split.
  - apply list_elem_of_fmap. exists y. split; [done|].
    apply elem_of_seqZ. lia.
  - apply elem_of_seqZ. lia.
Qed.

Lemma NoDup_allCells : NoDup allCells.
Proof. apply (bool_decide_unpack (NoDup allCells)). by vm_compute. Qed.

Lemma tileAt_store gr x y t x' y' :
  tileAt (storeTile gr x y t) x' y'
  = if decide (mkPoint x y = mkPoint x' y') then t else tileAt gr x' y'.
Proof.
  unfold tileAt, storeTile. rewrite lookup_insert. by case_decide.
Qed.

(** Writing one cell changes the count by what the cell stops and starts
    contributing. *)
Lemma towerTiles_store gr x y t :
  inGrid x y = true ->
  towerTiles (storeTile gr x y t)
  = towerTiles gr
    - (if decide (tileAt gr x y = TileTower) then 1 else 0)
    + (if decide (t = TileTower) then 1 else 0).
Proof.
  intros Hin. unfold towerTiles.
  pose proof (elem_of_allCells x y Hin) as Hel.
  pose proof NoDup_allCells as Hnd.
  revert Hel Hnd. generalize allCells as l.
  induction l as [|p l IH]; intros Hel Hnd; [by inversion Hel|].
  apply NoDup_cons in Hnd as [Hp Hnd]. simpl.
  apply elem_of_cons in Hel as [Heq | Hel].
  - subst p. simpl. rewrite tileAt_store.
    destruct (decide (mkPoint x y = mkPoint x y)) as [_|?]; [|done].
    assert (Hrest : forall l', mkPoint x y ∉ l' ->
      foldr (fun p n => (if decide (tileAt (storeTile gr x y t) (X p) (Y p) = TileTower)
                         then 1 else 0) + n) 0 l'
      = foldr (fun p n => (if decide (tileAt gr (X p) (Y p) = TileTower)
                           then 1 else 0) + n) 0 l').
    { clear. induction l' as [|q l' IH']; intros Hq; [done|].
      apply not_elem_of_cons in Hq as [Hne Hq]. simpl.
      rewrite IH' by done. rewrite tileAt_store.
      destruct (decide (mkPoint x y = mkPoint (X q) (Y q))) as [Heq|_]; [|done].
      destruct q; simpl in *. congruence. }
    rewrite Hrest by done. lia.
  - rewrite IH by done. rewrite tileAt_store.
    destruct (decide (mkPoint x y = mkPoint (X p) (Y p))) as [Heq|_]; [|lia].
    destruct p; simpl in *. congruence.
Qed.

Lemma towerTiles_nonneg gr : 0 <= towerTiles gr.
Proof.
  unfold towerTiles. generalize allCells as l.
  induction l as [|p l IH]; simpl; [done|].
  case_decide; lia.
Qed.

Lemma futureSpawns_values :
  futureSpawns 1 = 34 /\ futureSpawns 2 = 27 /\ futureSpawns 3 = 19 /\
  futureSpawns 4 = 10 /\ futureSpawns 5 = 0.
Proof. by vm_compute. Qed.

Lemma futureSpawns_step w :
  1 <= w < TotalWaves ->
  EnemiesPerWave + (w + 1) + futureSpawns (w + 1) = futureSpawns w.
Proof.
  unfold TotalWaves. intros H.
  assert (w = 1 \/ w = 2 \/ w = 3 \/ w = 4) as [-> | [-> | [-> | ->]]] by lia;
    by vm_compute.
Qed.

Lemma futureSpawns_nonneg w : 1 <= w <= TotalWaves -> 0 <= futureSpawns w.
Proof.
  unfold TotalWaves. intros H.
  assert (w = 1 \/ w = 2 \/ w = 3 \/ w = 4 \/ w = 5) as [-> | [-> | [-> | [-> | ->]]]] by lia;
    by vm_compute.
Qed.

Ltac ledger_facts g :=
  pose proof (towerTiles_nonneg (grid g));
  pose proof futureSpawns_values as (? & ? & ? & ? & ?);
  unfold ledgerInv, potential, StartingResource, KillReward, EnemiesPerWave,
    TowerCost, TotalWaves in *.

Lemma ledgerInv_NewGame : ledgerInv NewGame.
Proof. vm_compute. repeat split; discriminate. Qed.

Lemma ledgerInv_bounds g :
  ledgerInv g ->
  0 <= resources g <= 490 /\ 0 <= enemiesThisWave g <= 49 /\
  Z.of_nat (length (enemies g)) <= 49 /\ 0 <= towerTiles (grid g).
Proof.
  intros Hi. ledger_facts g. destruct Hi as (? & ? & Hw & ?).
  pose proof (futureSpawns_nonneg (currentWave g) Hw). lia.
Qed.

Lemma survivors_and_dead es :
  Z.of_nat (length (List.filter survives es)) + deadCount es
  <= Z.of_nat (length es).
Proof.
  induction es as [|e es IH]; [done|].
  rewrite deadCount_cons. simpl. unfold survives at 1.
  destruct (isDead e); simpl; [lia|]. destruct (negb _); simpl; lia.
Qed.

Lemma waveStep_ledger g :
  ledgerInv g -> ledgerInv (waveStep g).
Proof.
  intros Hi. pose proof (ledgerInv_bounds g Hi) as (Hr & Hn & Hl & Ht).
  unfold waveStep.
  destruct (Z.ltb_spec 0 (waveDelay g)) as [_|_]; [exact Hi|].
  destruct (Z.ltb_spec 0 (enemiesThisWave g)) as [Hpos|Hzero].
  - simpl. destruct (_ <=? 0); [|exact Hi]. simpl.
    assert (Hlen : Z.of_nat (length (enemies (spawnEnemy
              (set_spawnTimer g (GoInt.sub (spawnTimer g) 1)))))
            <= Z.of_nat (length (enemies g)) + 1).
    { unfold spawnEnemy. destruct (_ || _); simpl; [lia|].
      rewrite length_app. simpl. lia. }
    assert (Hg : grid (spawnEnemy (set_spawnTimer g (GoInt.sub (spawnTimer g) 1)))
                 = grid g /\
                 resources (spawnEnemy (set_spawnTimer g (GoInt.sub (spawnTimer g) 1)))
                 = resources g /\
                 currentWave (spawnEnemy (set_spawnTimer g (GoInt.sub (spawnTimer g) 1)))
                 = currentWave g /\
                 enemiesThisWave (spawnEnemy (set_spawnTimer g (GoInt.sub (spawnTimer g) 1)))
                 = enemiesThisWave g).
    { unfold spawnEnemy. by destruct (_ || _). }
    destruct Hg as (Hg1 & Hg2 & Hg3 & Hg4).
    unfold ledgerInv, potential in *. simpl. rewrite Hg1, Hg2, Hg3, Hg4.
    rewrite sub_small by (unfold GoInt.minInt, GoInt.maxInt; lia).
    unfold KillReward in *. lia.
  - destruct (length (enemies g) =? 0)%nat eqn:El; [|exact Hi].
    apply Nat.eqb_eq in El.
    destruct (Z.leb_spec TotalWaves (currentWave g)) as [_|Hlt]; [exact Hi|].
    destruct Hi as (? & ? & Hw & Hp).
    pose proof (futureSpawns_step (currentWave g) ltac:(lia)) as Hf.
    unfold ledgerInv, potential in *. simpl.
    unfold TotalWaves, EnemiesPerWave in *.
    rewrite !(add_small (currentWave g) 1) by (unfold GoInt.minInt, GoInt.maxInt; lia).
    rewrite add_small by (unfold GoInt.minInt, GoInt.maxInt; lia).
    rewrite El in *. unfold KillReward in *. lia.
Qed.

Lemma updateEnemies_loop_resources es : forall g alive g' alive',
  updateEnemies_loop es g alive = Some (g', alive') ->
  GoInt.inRange (resources g) -> GoInt.inRange (resources g').
Proof.
  induction es as [|e es IH]; intros g alive g' alive'; simpl.
  - by intros [= <- <-].
  - destruct (PrimFloat.leb (HP e) 0).
    { intros H _. eapply IH; [exact H|]. simpl. apply wrap_inRange. }
    destruct (_ <=? _); [intros H; exact (IH _ _ _ _ H)|].
    destruct (_ <? _); [done|].
    destruct (_ !! _); [|done]. intros H; exact (IH _ _ _ _ H).
Qed.

Lemma updateEnemies_ledger g g1 :
  ledgerInv g -> updateEnemies g = Some g1 ->
  ledgerInv g1 /\
  resources g1 = resources g + KillReward * deadCount (enemies g).
Proof.
  intros Hi. pose proof (ledgerInv_bounds g Hi) as (Hr & Hn & Hl & Ht).
  unfold updateEnemies.
  destruct (updateEnemies_loop _ _ _) as [[g' alive]|] eqn:E; [|done].
  intros [= <-].
  pose proof (updateEnemies_loop_spec _ _ _ _ _ E)
    as (Hr' & _ & Hlen & _ & Hg & _ & _ & Hw & Hnn & _).
  pose proof (survivors_and_dead (enemies g)) as Hsd.
  pose proof (deadCount_nonneg (enemies g)) as Hdn.
  assert (Hres : resources g' = resources g + KillReward * deadCount (enemies g)).
  { assert (Hin : GoInt.inRange (resources g')).
    { eapply updateEnemies_loop_resources; [exact E|].
      unfold GoInt.inRange, GoInt.minInt, GoInt.maxInt; lia. }
    rewrite <- (wrap_id _ Hin), Hr'. apply wrap_id.
    unfold GoInt.inRange, GoInt.minInt, GoInt.maxInt, KillReward. lia. }
  split; [|done].
  destruct Hi as (? & ? & ? & Hp).
  unfold ledgerInv, potential in *. simpl. rewrite Hres, Hg, Hw, Hnn, Hlen.
  simpl. unfold KillReward in *. lia.
Qed.

Lemma applyClicks_ledger g inp g1 b :
  applyClicks g inp = Some (g1, b) ->
  0 <= resources g <= 490 ->
  exists placed removed : bool,
    resources g1 = resources g - (if placed then TowerCost else 0)
                               + (if removed then TowerCost `quot` 2 else 0) /\
    (placed = true -> TowerCost <= resources g) /\
    (placed = true -> removed = false) /\
    towerTiles (grid g1) = towerTiles (grid g) + (if placed then 1 else 0)
                                               - (if removed then 1 else 0).
Proof.
  intros Ha Hr. revert Ha. unfold applyClicks, readTile.
  destruct (inGrid (hoverX g) (hoverY g)) eqn:Hin; [|done]. simpl.
  set (tile := tileAt (grid g) (hoverX g) (hoverY g)).
  destruct (leftPressed inp && bool_decide (tile = TileGround)) eqn:Eleft.
  - apply andb_prop in Eleft as [_ Htile]. apply bool_decide_eq_true in Htile.
    rewrite Htile. rewrite andb_false_r.
    unfold addTower. destruct (Z.ltb_spec (resources g) TowerCost) as [Hlt|Hge].
    + simpl. intros [= <- <-]. exists false, false. simpl.
      repeat split; try done; lia.
    + rewrite Hin. simpl. intros [= <- <-]. exists true, false. simpl.
      rewrite towerTiles_store by done. fold tile. rewrite Htile.
      unfold TowerCost in *.
      rewrite sub_small by (unfold GoInt.minInt, GoInt.maxInt; lia).
      repeat split; try done; repeat (destruct (decide _); try done); lia.
  - simpl. destruct (rightPressed inp && bool_decide (tile = TileTower)) eqn:Eright.
    + apply andb_prop in Eright as [_ Htile]. apply bool_decide_eq_true in Htile.
      unfold removeTower. rewrite Hin. simpl. intros [= <- <-].
      exists false, true. simpl.
      rewrite towerTiles_store by done. fold tile. rewrite Htile.
      change (TowerCost `quot` 2) with 12.
      rewrite add_small by (unfold GoInt.minInt, GoInt.maxInt; lia).
      repeat split; try done; repeat (destruct (decide _); try done); lia.
    + intros [= <- <-]. exists false, false. simpl.
      repeat split; try done; lia.
Qed.

Lemma handleClicks_ledger g inp g' :
  ledgerInv g -> handleClicks g inp = Some g' ->
  ledgerInv g' /\
  exists placed removed : bool,
    resources g' = resources g - (if placed then TowerCost else 0)
                               + (if removed then TowerCost `quot` 2 else 0) /\
    (placed = true -> TowerCost <= resources g) /\
    (placed = true -> removed = false).
Proof.
  intros Hi. pose proof (ledgerInv_bounds g Hi) as (Hr & Hn & Hl & Ht).
  assert (Hnone : ledgerInv g /\
    exists placed removed : bool,
      resources g = resources g - (if placed then TowerCost else 0)
                                + (if removed then TowerCost `quot` 2 else 0) /\
      (placed = true -> TowerCost <= resources g) /\
      (placed = true -> removed = false)).
  { split; [done|]. exists false, false. simpl. repeat split; try done; lia. }
  unfold handleClicks. destruct (_ && _); [|by intros [= <-]].
  destruct (applyClicks g inp) as [[g1 b]|] eqn:E; [|done].
  pose proof (applyClicks_frame _ _ _ _ E) as (_ & He & _ & Hw & Hnn & _).
  apply applyClicks_ledger in E as (placed & removed & Hres & Hp1 & Hp2 & Htt);
    [|done].
  assert (Hi1 : ledgerInv g1).
  { destruct Hi as (? & ? & ? & Hp).
    unfold ledgerInv, potential in *. rewrite Hres, Htt, He, Hw, Hnn.
    change (TowerCost `quot` 2) with 12. unfold TowerCost, KillReward in *.
    destruct placed, removed; try (specialize (Hp2 eq_refl); done);
      try specialize (Hp1 eq_refl); lia. }
  intros Hg'.
  assert (Hfin : ledgerInv g' /\ resources g' = resources g1).
  { destruct b; injection Hg' as <-; [|done].
    split; [|done]. unfold ledgerInv, potential in *. simpl.
    by rewrite length_map. }
  destruct Hfin as [Hi' Hr']. split; [done|].
  exists placed, removed. rewrite Hr'. done.
Qed.

Lemma passes_ledger g inp :
  ledgerInv g ->
  ledgerInv (updateHover (updateLasers (updateTowers g)) inp) /\
  resources (updateHover (updateLasers (updateTowers g)) inp) = resources g.
Proof.
  intros Hi.
  destruct (updateHover_frame (updateLasers (updateTowers g)) inp)
    as (_ & He & _ & Hw & Hn & _ & Hr & Hg).
  destruct (updateTowers_frame g) as (Hl & Hr' & _ & _ & Hw' & Hn' & _ & Hg').
  simpl in *. split; [|congruence].
  unfold ledgerInv, potential in *. rewrite Hr, Hg, Hw, Hn, He. simpl.
  rewrite Hr', Hg', Hw', Hn', Hl. done.
Qed.

Lemma Update_ledger g inp g' :
  ledgerInv g -> Update g inp = Some g' -> ledgerInv g' /\ ledgerStep g g'.
Proof.
  intros Hi HU. destruct (decide (state g = StatePlaying)) as [Hs|Hs].
  - rewrite Update_playing in HU by done.
    destruct (updateEnemies (waveStep g)) as [g1|] eqn:E; [|done].
    pose proof (waveStep_ledger g Hi) as Hi0.
    destruct (waveStep_frame g) as (Hd & Hwr & _).
    apply updateEnemies_ledger in E as [Hi1 Hr1]; [|done].
    rewrite Hd, Hwr in Hr1.
    destruct (passes_ledger g1 inp Hi1) as [Hi2 Hr2].
    apply handleClicks_ledger in HU as (Hi3 & placed & removed & Hr3 & Hp1 & Hp2);
      [|done].
    split; [done|]. right. split; [done|].
    exists placed, removed. simpl. rewrite Hr3, Hr2, Hr1.
    repeat split; try done. intros Hp. specialize (Hp1 Hp). lia.
  - unfold Update in HU. rewrite bool_decide_eq_false_2 in HU by done.
    simpl in HU. destruct (keyR inp); injection HU as <-.
    + split; [apply ledgerInv_NewGame|]. left. auto.
    + split; [done|]. left. auto.
Qed.

Lemma reachable_ledger g : reachable g -> ledgerInv g.
Proof.
  induction 1 as [|g inp g' _ IH HU]; [apply ledgerInv_NewGame|].
  by apply (Update_ledger g inp g').
Qed.

(** C9: in every state reachable from a new game by ticks, whatever
    placement, removal and reset commands their inputs carry, the resource
    counter is not negative; and a tick changes it only by the kill reward
    for each enemy found dead, by the cost of a tower placed (never more
    than the resources at hand) and by the refund for a tower removed, a
    reset building a new game with the starting resources. *)
Theorem resources_never_negative (g : Game) :
  reachable g ->
  0 <= resources g /\
  forall inp g', Update g inp = Some g' -> ledgerStep g g' /\ 0 <= resources g'.
Proof.
  intros Hreach. pose proof (reachable_ledger g Hreach) as Hi.
  split; [by destruct Hi|].
  intros inp g' HU. destruct (Update_ledger g inp g' Hi HU) as [Hi' Hstep].
  split; [done | by destruct Hi'].
Qed.

Lemma resources_never_negative_witness :
  0 <= resources NewGame /\
  forall inp g', Update NewGame inp = Some g' ->
    ledgerStep NewGame g' /\ 0 <= resources g'.
Proof. apply (resources_never_negative NewGame). apply reachable_new. Defined.

(** ** The binary heap *)

Lemma transpose_inj i j : Inj (=) (=) (transpose i j).
Proof.
  intros a b. unfold transpose. repeat case_decide; congruence.
Qed.

Lemma Swap_length h i j : length (PQ.Swap h i j) = length h.
Proof.
  unfold PQ.Swap. destruct (h !! i), (h !! j); try done.
  by rewrite !length_insert.
Qed.

Lemma Swap_lookup h i j k :
  (i < length h)%nat -> (j < length h)%nat ->
  itemKey <$> (PQ.Swap h i j !! k) = itemKey <$> (h !! transpose i j k).
Proof.
  intros Hi Hj. unfold PQ.Swap, transpose.
  destruct (lookup_lt_is_Some_2 h i Hi) as [a Ha].
  destruct (lookup_lt_is_Some_2 h j Hj) as [b Hb].
  rewrite Ha, Hb.
  destruct (decide (k = j)) as [->|Hkj].
  - rewrite list_lookup_insert_eq by (by rewrite length_insert).
    destruct (decide (j = i)) as [->|Hji].
    + rewrite Hb. rewrite Ha in Hb. by injection Hb as ->.
    + destruct (decide (j = j)) as [_|?]; [|done]. by rewrite Ha.
  - rewrite list_lookup_insert_ne by done.
    destruct (decide (k = i)) as [->|Hki].
    + rewrite list_lookup_insert_eq by done. by rewrite Hb.
    + by rewrite list_lookup_insert_ne.
Qed.

Lemma Swap_pr h i j k :
  (i < length h)%nat -> (j < length h)%nat ->
  pr (PQ.Swap h i j) k = pr h (transpose i j k).
Proof.
  intros Hi Hj. pose proof (Swap_lookup h i j k Hi Hj) as H.
  unfold pr. destruct (PQ.Swap h i j !! k), (h !! transpose i j k);
    simpl in H; try done. by injection H.
Qed.

Lemma Swap_keys h i j :
  (i < length h)%nat -> (j < length h)%nat ->
  itemKey <$> PQ.Swap h i j ≡ₚ itemKey <$> h.
Proof.
  intros Hi Hj. apply Permutation_inj. split.
  - by rewrite !length_fmap, Swap_length.
  - exists (transpose i j). split; [apply transpose_inj|].
    intros k. rewrite !list_lookup_fmap. by apply Swap_lookup.
Qed.

Lemma Less_pr h i j :
  (i < length h)%nat -> (j < length h)%nat ->
  PQ.Less h i j = (pr h i <? pr h j).
Proof.
  intros Hi Hj. unfold PQ.Less, pr.
  destruct (lookup_lt_is_Some_2 h i Hi) as [a ->].
  by destruct (lookup_lt_is_Some_2 h j Hj) as [b ->].
Qed.

Lemma up_loop_keys fuel : forall h j,
  (j < length h)%nat ->
  itemKey <$> heap.up_loop fuel h j ≡ₚ itemKey <$> h.
Proof.
  induction fuel as [|fuel IH]; intros h j Hj; cbn [heap.up_loop]; [done|].
  destruct (_ || _); [done|].
  assert (Hi : ((j - 1) / 2 < length h)%nat).
  { pose proof (Nat.Div0.div_le_upper_bound (j - 1) 2 j). lia. }
  rewrite IH by (by rewrite Swap_length). by apply Swap_keys.
Qed.

Lemma down_loop_keys fuel : forall h i n,
  (i < n)%nat -> (n <= length h)%nat ->
  itemKey <$> heap.down_loop fuel h i n ≡ₚ itemKey <$> h.
Proof.
  induction fuel as [|fuel IH]; intros h i n Hi Hn; cbn [heap.down_loop]; [done|].
  destruct (Nat.leb_spec n (2 * i + 1)) as [|Hj1]; [done|].
  set (j := if (2 * i + 1 + 1 <? n)%nat && PQ.Less h (2 * i + 1 + 1) (2 * i + 1)
            then (2 * i + 1 + 1)%nat else (2 * i + 1)%nat).
  assert (Hj : (i < j < n)%nat).
  { unfold j. destruct (Nat.ltb_spec (2 * i + 1 + 1) n); simpl;
      [destruct (PQ.Less _ _ _)|]; lia. }
  destruct (negb _); [done|].
  rewrite IH by (rewrite ?Swap_length; lia). apply Swap_keys; lia.
Qed.

(** [down] leaves the positions from [n] on alone. *)
Lemma down_loop_above fuel : forall h i n k,
  (i < n)%nat -> (n <= length h)%nat -> (n <= k)%nat ->
  itemKey <$> (heap.down_loop fuel h i n !! k) = itemKey <$> (h !! k).
Proof.
  induction fuel as [|fuel IH]; intros h i n k Hi Hn Hk; cbn [heap.down_loop]; [done|].
  destruct (Nat.leb_spec n (2 * i + 1)) as [|Hj1]; [done|].
  set (j := if (2 * i + 1 + 1 <? n)%nat && PQ.Less h (2 * i + 1 + 1) (2 * i + 1)
            then (2 * i + 1 + 1)%nat else (2 * i + 1)%nat).
  assert (Hj : (i < j < n)%nat).
  { unfold j. destruct (Nat.ltb_spec (2 * i + 1 + 1) n); simpl;
      [destruct (PQ.Less _ _ _)|]; lia. }
  destruct (negb _); [done|].
  rewrite IH by (rewrite ?Swap_length; lia).
  rewrite Swap_lookup by lia. unfold transpose.
  repeat case_decide; try lia. done.
Qed.

Lemma Push_keys h x :
  itemKey <$> heap.Push h x ≡ₚ itemKey x :: (itemKey <$> h).
Proof.
  unfold heap.Push, heap.up, PQ.Push, PQ.Len.
  rewrite up_loop_keys by (rewrite length_app; simpl; lia).
  rewrite fmap_app. simpl. by rewrite <- Permutation_cons_append.
Qed.

Lemma Pop_None h : heap.Pop h = None <-> h = [].
Proof.
  split; [|by intros ->].
  destruct h as [|a h]; [done|]. unfold heap.Pop, PQ.Pop.
  set (h' := heap.down _ _ _).
  assert (Hlen : length h' = S (length h)).
  { unfold h', heap.down, PQ.Len.
    destruct (decide (length h = 0)%nat) as [Hz|Hnz].
    - destruct h; [|done]. done.
    - pose proof (down_loop_keys (length (a :: h) - 1) (PQ.Swap (a :: h) 0 (length (a :: h) - 1))
                    0 (length (a :: h) - 1)) as Hp.
      simpl in Hp. rewrite Nat.sub_0_r in Hp.
      specialize (Hp ltac:(lia) ltac:(rewrite Swap_length; simpl; lia)).
      apply Permutation_length in Hp. rewrite !length_fmap, Swap_length in Hp.
      simpl in *. rewrite Nat.sub_0_r. done. }
  destruct (last h') eqn:El; [done|].
  apply last_None in El. rewrite El in Hlen. done.
Qed.

Lemma down_length h n : (0 < n <= length h)%nat -> length (heap.down h 0 n) = length h.
Proof.
  intros Hn. unfold heap.down.
  pose proof (down_loop_keys n h 0 n ltac:(lia) ltac:(lia)) as Hp.
  apply Permutation_length in Hp. by rewrite !length_fmap in Hp.
Qed.

(** [heap.Pop] hands out the entry at the root and keeps the others. *)
Lemma Pop_keys h it rest :
  heap.Pop h = Some (it, rest) ->
  itemKey <$> h ≡ₚ itemKey it :: (itemKey <$> rest) /\
  Some (itemKey it) = itemKey <$> (h !! 0%nat).
Proof.
  destruct h as [|a h]; [done|]. unfold heap.Pop, PQ.Len.
  set (n := (length (a :: h) - 1)%nat).
  assert (Hn : length (a :: h) = S n) by (unfold n; simpl; lia).
  set (h1 := PQ.Swap (a :: h) 0 n).
  assert (Hlen1 : length h1 = S n) by (unfold h1; by rewrite Swap_length).
  set (h2 := heap.down h1 0 n).
  assert (Hk2 : itemKey <$> h2 ≡ₚ itemKey <$> (a :: h) /\
                itemKey <$> (h2 !! n) = Some (itemKey a) /\ length h2 = S n).
  { destruct (decide (n = 0)%nat) as [Hz|Hnz].
    - unfold h2, heap.down. rewrite Hz. cbn [heap.down_loop].
      unfold h1. rewrite Hz. destruct h; [|simpl in Hn; lia]. done.
    - unfold h2, heap.down. split; [|split].
      + rewrite down_loop_keys by lia. apply Swap_keys; lia.
      + rewrite down_loop_above by lia. unfold h1.
        rewrite Swap_lookup by lia. unfold transpose.
        destruct (decide (n = 0)%nat); [done|].
        by destruct (decide (n = n)).
      + fold (heap.down h1 0 n). rewrite down_length by lia. done. }
  destruct Hk2 as (Hperm & Hlast & Hlen2).
  unfold PQ.Pop. rewrite last_lookup, Hlen2. simpl.
  destruct (h2 !! n) as [b|] eqn:Eb; [|done].
  intros [= <- <-].
  assert (Hba : itemKey b = itemKey a) by (simpl in Hlast; congruence).
  change (itemKey (mkItem (point b) (priority b) (-1))) with (itemKey b).
  split; [|by rewrite Hba].
  change (itemKey <$> a :: h) with (itemKey a :: (itemKey <$> h)) in Hperm.
  rewrite <- Hperm.
  rewrite <- (take_drop n h2) at 1. rewrite fmap_app.
  rewrite Nat.sub_0_r.
  assert (Hd : drop n h2 = [b]).
  { apply list_eq. intros k. rewrite lookup_drop.
    destruct k as [|k]; simpl.
    - by rewrite Nat.add_0_r.
    - apply lookup_ge_None. lia. }
  rewrite Hd. simpl. by rewrite <- Permutation_cons_append.
Qed.

Lemma Pop_length h it rest :
  heap.Pop h = Some (it, rest) -> length h = S (length rest).
Proof.
  intros H. apply Pop_keys in H as [H _].
  apply Permutation_length in H. simpl in H. by rewrite !length_fmap in H.
Qed.

Lemma Push_length h x : length (heap.Push h x) = S (length h).
Proof.
  pose proof (Push_keys h x) as H. apply Permutation_length in H.
  simpl in H. by rewrite !length_fmap in H.
Qed.

(** *** Heap order *)

Lemma heapOrdered_root h k :
  heapOrdered h -> (k < length h)%nat -> pr h 0 <= pr h k.
Proof.
  intros Hh. induction k as [k IH] using lt_wf_ind. intros Hk.
  destruct (decide (k = 0)%nat) as [->|Hnz]; [lia|].
  assert (Hp : ((k - 1) / 2 < k)%nat).
  { pose proof (Nat.Div0.div_le_upper_bound (k - 1) 2 (k - 1)). lia. }
  specialize (IH _ Hp ltac:(lia)). specialize (Hh k ltac:(lia)). lia.
Qed.

Lemma up_loop_heapOrdered fuel : forall h j,
  (j < fuel)%nat -> (j < length h)%nat -> upInv h j ->
  heapOrdered (heap.up_loop fuel h j).
Proof.
  induction fuel as [|fuel IH]; intros h j Hf Hj [H1 H2]; [lia|].
  cbn [heap.up_loop].
  assert (Hi : ((j - 1) / 2 <= j)%nat).
  { pose proof (Nat.Div0.div_le_upper_bound (j - 1) 2 j). lia. }
  destruct (Nat.eqb_spec ((j - 1) / 2) j) as [Heq|Hne]; cbn [orb negb].
  { intros k Hk. apply H1; [done|].
    assert (j = 0)%nat; [|lia].
    destruct (decide (j = 0)%nat); [done|].
    pose proof (Nat.Div0.div_le_upper_bound (j - 1) 2 (j - 1)). lia. }
  rewrite Less_pr by lia.
  destruct (Z.ltb_spec (pr h j) (pr h ((j - 1) / 2))) as [Hlt|Hge]; cbn [orb negb].
  2:{ intros k Hk. destruct (decide (k = j)) as [->|Hkj]; [done|]. by apply H1. }
  assert (Hjpos : (0 < j)%nat) by lia.
  assert (Hij : ((j - 1) / 2 < j)%nat) by lia.
  apply IH; [lia | rewrite Swap_length; lia |].
  set (i := ((j - 1) / 2)%nat) in *.
  split.
  - intros k Hk Hki. rewrite Swap_length in Hk.
    rewrite !Swap_pr by lia. unfold transpose.
    destruct (decide (k = j)) as [->|Hkj].
    + fold i. destruct (decide (i = i)); [|done].
      destruct (decide (j = i)); [lia|]. lia.
    + destruct (decide (k = i)); [done|].
      destruct (decide ((k - 1) / 2 = i)%nat) as [Hpi|Hpi].
      * specialize (H1 k Hk Hkj). rewrite Hpi in H1. lia.
      * destruct (decide ((k - 1) / 2 = j)%nat) as [Hpj|Hpj].
        -- specialize (H2 k Hk Hpj Hjpos). done.
        -- by apply H1.
  - intros k Hk Hpi Hipos. rewrite Swap_length in Hk.
    rewrite !Swap_pr by lia. unfold transpose.
    assert (Hpp : ((i - 1) / 2 < i)%nat).
    { pose proof (Nat.Div0.div_le_upper_bound (i - 1) 2 (i - 1)). lia. }
    destruct (decide ((i - 1) / 2 = i)%nat); [lia|].
    destruct (decide ((i - 1) / 2 = j)%nat); [lia|].
    pose proof (H1 i ltac:(lia) ltac:(lia)) as Hpi'.
    destruct (decide (k = i)) as [Hki|Hki]; [congruence|].
    destruct (decide (k = j)) as [->|Hkj]; [done|].
    specialize (H1 k Hk Hkj). rewrite Hpi in H1. lia.
Qed.

Lemma Push_heapOrdered h x : heapOrdered h -> heapOrdered (heap.Push h x).
Proof.
  intros Hh. unfold heap.Push, heap.up, PQ.Push, PQ.Len.
  replace (length (h ++ [PQ.setIndex x (length h)]) - 1)%nat with (length h)
    by (rewrite length_app; cbn [length]; lia).
  apply up_loop_heapOrdered; [lia | rewrite length_app; cbn [length]; lia |].
  assert (Hpr : forall k, (k < length h)%nat ->
            pr (h ++ [PQ.setIndex x (length h)]) k = pr h k).
  { intros k Hk. unfold pr. by rewrite lookup_app_l. }
  split.
  - intros k Hk Hne. rewrite length_app in Hk. cbn [length] in Hk.
    assert (Hp : ((k - 1) / 2 <= k - 1)%nat)
      by (pose proof (Nat.Div0.div_le_upper_bound (k - 1) 2 (k - 1)); lia).
    rewrite !Hpr by lia. apply Hh. lia.
  - intros k Hk Hp _. rewrite length_app in Hk. cbn [length] in Hk.
    assert (((k - 1) / 2 <= k - 1)%nat)
      by (pose proof (Nat.Div0.div_le_upper_bound (k - 1) 2 (k - 1)); lia).
    lia.
Qed.

Lemma parent_children (k i : nat) :
  (0 < k)%nat -> ((k - 1) / 2 = i)%nat -> (k = 2 * i + 1 \/ k = 2 * i + 2)%nat.
Proof.
  intros Hk Hp.
  pose proof (Nat.div_mod_eq (k - 1) 2) as Hdm.
  pose proof (Nat.mod_upper_bound (k - 1) 2 ltac:(lia)) as Hm.
  rewrite Hp in Hdm. lia.
Qed.

Lemma children_parent (k i : nat) :
  (k = 2 * i + 1 \/ k = 2 * i + 2)%nat -> ((k - 1) / 2 = i)%nat.
Proof.
  intros [-> | ->].
  - replace (2 * i + 1 - 1)%nat with (i * 2)%nat by lia. apply Nat.div_mul. lia.
  - replace (2 * i + 2 - 1)%nat with (1 + i * 2)%nat by lia.
    rewrite Nat.div_add by lia. simpl. lia.
Qed.

Lemma down_loop_ordered fuel : forall h i n,
  (n <= length h)%nat -> (n - i <= fuel)%nat -> downInv h i n ->
  forall k, (0 < k < n)%nat ->
    pr (heap.down_loop fuel h i n) ((k - 1) / 2) <= pr (heap.down_loop fuel h i n) k.
Proof.
  induction fuel as [|fuel IH]; intros h i n Hn Hf [H1 H2].
  { intros k Hk. cbn [heap.down_loop]. apply H1; [done|].
    pose proof (Nat.Div0.div_le_upper_bound (k - 1) 2 (k - 1)). lia. }
  cbn [heap.down_loop].
  destruct (Nat.leb_spec n (2 * i + 1)) as [Hge|Hj1].
  { intros k Hk. apply H1; [done|]. intros Hp.
    apply parent_children in Hp; lia. }
  set (j := if (2 * i + 1 + 1 <? n)%nat && PQ.Less h (2 * i + 1 + 1) (2 * i + 1)
            then (2 * i + 1 + 1)%nat else (2 * i + 1)%nat).
  assert (Hj : (j = 2 * i + 1 \/ j = 2 * i + 2)%nat /\ (j < n)%nat /\
               pr h j <= pr h (2 * i + 1) /\
               ((2 * i + 2 < n)%nat -> pr h j <= pr h (2 * i + 2))).
  { unfold j. destruct (Nat.ltb_spec (2 * i + 1 + 1) n) as [Hlt|Hnlt]; cbn [andb].
    - rewrite Less_pr by lia.
      replace (2 * i + 1 + 1)%nat with (2 * i + 2)%nat in * by lia.
      destruct (Z.ltb_spec (pr h (2 * i + 2)) (pr h (2 * i + 1))); lia.
    - lia. }
  destruct Hj as (Hjc & Hjn & Hjl & Hjr).
  rewrite Less_pr by lia.
  destruct (Z.ltb_spec (pr h j) (pr h i)) as [Hlt|Hnlt]; cbn [negb].
  2:{ intros k Hk. destruct (decide ((k - 1) / 2 = i)%nat) as [Hp|Hp];
        [|by apply H1].
      rewrite Hp.
      assert (Hkc : (k = 2 * i + 1 \/ k = 2 * i + 2)%nat)
        by (apply parent_children; [lia | done]).
      destruct Hkc as [->| ->]; [lia|]. specialize (Hjr ltac:(lia)). lia. }
  assert (Hpj : ((j - 1) / 2 = i)%nat) by (by apply children_parent).
  apply IH; [rewrite Swap_length; lia | lia |].
  split.
  - intros k Hk Hpk. rewrite !Swap_pr by lia. unfold transpose.
    destruct (decide (k = i)) as [->|Hki].
    + assert (Hipos : (0 < i)%nat) by lia.
      assert (Hpp : ((i - 1) / 2 < i)%nat).
      { pose proof (Nat.Div0.div_le_upper_bound (i - 1) 2 (i - 1)). lia. }
      destruct (decide ((i - 1) / 2 = i)%nat); [lia|].
      destruct (decide ((i - 1) / 2 = j)%nat); [lia|].
      apply (H2 j); [lia | done | done].
    + destruct (decide (k = j)) as [->|Hkj].
      { rewrite Hpj. destruct (decide (i = i)); [lia|done]. }
      destruct (decide ((k - 1) / 2 = i)%nat) as [Hp|Hp].
      * assert (Hkc : (k = 2 * i + 1 \/ k = 2 * i + 2)%nat)
          by (apply parent_children; [lia | done]).
        destruct Hkc as [->| ->]; [lia|]. specialize (Hjr ltac:(lia)). lia.
      * destruct (decide ((k - 1) / 2 = j)%nat); [done|]. by apply H1.
  - intros k Hk Hpk Hjpos. rewrite !Swap_pr by lia. unfold transpose.
    rewrite Hpj. destruct (decide (i = i)); [|done].
    pose proof (parent_children k j ltac:(lia) Hpk) as Hkc.
    destruct (decide (k = i)); [lia|]. destruct (decide (k = j)); [lia|].
    specialize (H1 k Hk ltac:(lia)). rewrite Hpk in H1. done.
Qed.

Lemma Pop_rest h it rest :
  heap.Pop h = Some (it, rest) ->
  rest = take (length h - 1)
              (heap.down (PQ.Swap h 0 (length h - 1)) 0 (length h - 1)) /\
  length (heap.down (PQ.Swap h 0 (length h - 1)) 0 (length h - 1)) = length h.
Proof.
  destruct h as [|a h]; [done|]. unfold heap.Pop, PQ.Len, PQ.Pop.
  set (n := (length (a :: h) - 1)%nat).
  set (h2 := heap.down _ 0 n).
  assert (Hlen : length h2 = length (a :: h)).
  { unfold h2. destruct (decide (n = 0)%nat) as [Hz|Hnz].
    - unfold heap.down. rewrite Hz. cbn [heap.down_loop]. apply Swap_length.
    - rewrite down_length; rewrite Swap_length; [done|]. unfold n in *. simpl in *. lia. }
  destruct (last h2); [|done]. intros [= <- <-]. split; [|done].
  rewrite Hlen. done.
Qed.

(** [heap.Pop] keeps the heap order and hands out an entry of least
    priority. *)
Lemma Pop_heapOrdered h it rest :
  heapOrdered h -> heap.Pop h = Some (it, rest) ->
  heapOrdered rest /\ forall x, x ∈ h -> priority it <= priority x.
Proof.
  intros Hh HP. split.
  - destruct (Pop_rest _ _ _ HP) as [-> Hlen].
    pose proof (Pop_length _ _ _ HP) as Hl.
    set (n := (length h - 1)%nat) in *.
    intros k Hk. rewrite length_take, Hlen in Hk.
    assert (Hp : ((k - 1) / 2 <= k - 1)%nat)
      by (pose proof (Nat.Div0.div_le_upper_bound (k - 1) 2 (k - 1)); lia).
    assert (Hpr : forall m, (m < n)%nat ->
              pr (take n (heap.down (PQ.Swap h 0 n) 0 n)) m
              = pr (heap.down (PQ.Swap h 0 n) 0 n) m).
    { intros m Hm. unfold pr. by rewrite lookup_take_lt. }
    rewrite !Hpr by lia. unfold heap.down.
    apply down_loop_ordered; [rewrite Swap_length; lia | lia | | lia].
    split; [|lia].
    intros m Hm Hpm.
    assert (Hpm' : ((m - 1) / 2 <= m - 1)%nat)
      by (pose proof (Nat.Div0.div_le_upper_bound (m - 1) 2 (m - 1)); lia).
    rewrite !Swap_pr by lia. unfold transpose.
    destruct (decide ((m - 1) / 2 = 0)%nat); [done|].
    destruct (decide ((m - 1) / 2 = n)%nat); [lia|].
    destruct (decide (m = 0)%nat); [lia|].
    destruct (decide (m = n)%nat); [lia|].
    apply Hh. lia.
  - intros x Hx. apply list_elem_of_lookup in Hx as [k Hk].
    pose proof (heapOrdered_root h k Hh (lookup_lt_Some _ _ _ Hk)) as Hroot.
    apply Pop_keys in HP as [_ H0]. unfold pr in Hroot. rewrite Hk in Hroot.
    destruct (h !! 0%nat) as [r|]; [|done]. simpl in H0.
    injection H0 as _ Hpri. lia.
Qed.

(** ** Pathfinding: cells, moves and scores *)

Lemma walkable_inGrid g p : walkable g p -> inGrid (X p) (Y p) = true.
Proof.
  unfold walkable, isWalkable, inGrid.
  destruct (X p <? 0) eqn:E1, (GridWidth <=? X p) eqn:E2,
           (Y p <? 0) eqn:E3, (GridHeight <=? Y p) eqn:E4; simpl; try done.
  intros _. unfold GridWidth, GridHeight in *. lia.
Qed.

Lemma walkable_allCells g p : walkable g p -> p ∈ allCells.
Proof.
  intros H. apply walkable_inGrid in H. destruct p as [x y].
  by apply elem_of_allCells.
Qed.

Lemma walkable_wf g p : walkable g p -> wfPoint p.
Proof.
  intros H. apply walkable_inGrid in H. unfold inGrid, GridWidth, GridHeight in H.
  unfold wfPoint, GoInt.inRange, GoInt.minInt, GoInt.maxInt. lia.
Qed.

Lemma elem_of_dirs d :
  d ∈ dirs <-> d = mkPoint 0 (-1) \/ d = mkPoint 0 1 \/ d = mkPoint (-1) 0 \/ d = mkPoint 1 0.
Proof.
  unfold dirs. rewrite !elem_of_cons, elem_of_nil. tauto.
Qed.

(** Between a well-formed cell and a walkable one, a move of the search
    is a step to a 4-adjacent cell, and conversely. *)
Lemma hop_adjacent g p q :
  wfPoint p -> walkable g q -> hop p q -> adjacent p q.
Proof.
  intros [Hx Hy] Hq (d & Hd & ->).
  apply walkable_inGrid in Hq. unfold inGrid, GridWidth, GridHeight in Hq.
  unfold adjacent. simpl in *.
  unfold GoInt.inRange, GoInt.minInt, GoInt.maxInt in *.
  assert (Hw : forall a b, - 2 ^ 63 <= a <= 2 ^ 63 - 1 -> -1 <= b <= 1 ->
            0 <= GoInt.add a b < 20 -> GoInt.add a b = a + b).
  { intros a b Ha Hb Hr. unfold GoInt.add, GoInt.wrap in *.
    destruct (Z.eq_dec (a + b) (2 ^ 63)) as [E|E].
    - rewrite E in Hr. change ((2 ^ 63 + 2 ^ 63) mod 2 ^ 64) with 0 in Hr. lia.
    - destruct (Z.eq_dec (a + b) (- 2 ^ 63 - 1)) as [E'|E'].
      + rewrite E' in Hr.
        change ((- 2 ^ 63 - 1 + 2 ^ 63) mod 2 ^ 64) with (2 ^ 64 - 1) in Hr. lia.
      + rewrite Z.mod_small by lia. lia. }
  apply elem_of_dirs in Hd as [-> | [-> | [-> | ->]]]; simpl in *;
    rewrite !Hw by lia; lia.
Qed.

Lemma adjacent_hop g p q :
  wfPoint p -> walkable g q -> adjacent p q -> hop p q.
Proof.
  intros [Hx Hy] Hq Hadj.
  apply walkable_inGrid in Hq. unfold inGrid, GridWidth, GridHeight in Hq.
  unfold adjacent in Hadj. unfold GoInt.inRange, GoInt.minInt, GoInt.maxInt in *.
  destruct p as [px py], q as [qx qy]. simpl in *.
  exists (mkPoint (qx - px) (qy - py)). split.
  - apply elem_of_dirs.
    assert ((qx - px = 0 /\ qy - py = -1) \/ (qx - px = 0 /\ qy - py = 1) \/
            (qx - px = -1 /\ qy - py = 0) \/ (qx - px = 1 /\ qy - py = 0)) as Hc by lia.
    destruct Hc as [[-> ->] | [[-> ->] | [[-> ->] | [-> ->]]]]; tauto.
  - unfold neighborOf. simpl. f_equal.
    + rewrite add_small by (unfold GoInt.minInt, GoInt.maxInt; lia). lia.
    + rewrite add_small by (unfold GoInt.minInt, GoInt.maxInt; lia). lia.
Qed.

(** A sum over cells without repetition changes, when one cell's term
    does, by the difference of that term. *)
Lemma sum_update (f f' : Point -> Z) (l : list Point) (p : Point) :
  NoDup l -> p ∈ l -> (forall q, q <> p -> f' q = f q) ->
  foldr (fun c n => f' c + n) 0 l = foldr (fun c n => f c + n) 0 l - f p + f' p.
Proof.
  intros Hnd Hp Hf.
  assert (Hrest : forall l', p ∉ l' ->
            foldr (fun c n => f' c + n) 0 l' = foldr (fun c n => f c + n) 0 l').
  { induction l' as [|q l' IH]; intros Hq; [done|].
    apply not_elem_of_cons in Hq as [Hne Hq]. simpl.
    rewrite IH by done. rewrite Hf by done. done. }
  induction l as [|q l IH]; [by inversion Hp|].
  apply NoDup_cons in Hnd as [Hq Hnd]. simpl.
  apply elem_of_cons in Hp as [<- | Hp].
  - rewrite Hrest by done. lia.
  - rewrite IH by done. rewrite Hf; [lia|]. intros ->. done.
Qed.

Lemma size_within (m : gmap Point Z) (l : list Point) (extra : Point) :
  NoDup l -> (forall n, is_Some (m !! n) -> n = extra \/ n ∈ l) ->
  (size m <= S (length l))%nat.
Proof.
  intros Hnd Hsub.
  assert (Hdom : dom m ⊆ {[extra]} ∪ list_to_set l).
  { intros n Hn. apply elem_of_dom in Hn.
    destruct (Hsub n Hn) as [-> | Hl]; [set_solver|].
    apply elem_of_union_r. by apply elem_of_list_to_set. }
  apply subseteq_size in Hdom. rewrite size_dom in Hdom.
  rewrite size_union_alt, size_singleton in Hdom.
  assert (Hd : (size (list_to_set (C := gset Point) l ∖ {[extra]}) <= length l)%nat).
  { rewrite <- (size_list_to_set (C := gset Point) l Hnd).
    apply subseteq_size. intros x Hx.
    by apply elem_of_difference in Hx as [Hx _]. }
  lia.
Qed.

Lemma length_allCells : length allCells = 300%nat.
Proof. by vm_compute. Qed.

Lemma size_scores g start s :
  SearchInv g start s -> Z.of_nat (size (gScore s)) <= noScore.
Proof.
  intros Hi.
  pose proof (size_within (gScore s) allCells start NoDup_allCells) as Hs.
  rewrite length_allCells in Hs.
  assert (Hsub : forall n, is_Some (gScore s !! n) -> n = start \/ n ∈ allCells).
  { intros n [gn Hn].
    destruct (inv_dom _ _ _ Hi n gn Hn) as [-> | [p Hp]]; [by left|].
    apply (inv_parent _ _ _ Hi) in Hp as (Hw & _).
    right. by eapply walkable_allCells. }
  specialize (Hs Hsub). unfold noScore, GridWidth, GridHeight. lia.
Qed.

Lemma score_bound g start s n gn :
  SearchInv g start s -> gScore s !! n = Some gn -> 0 <= gn < noScore.
Proof.
  intros Hi Hn. pose proof (inv_bound _ _ _ Hi n gn Hn).
  pose proof (size_scores g start s Hi). lia.
Qed.

(** *** One direction of one expansion *)

Lemma visit_cases g goal cur s d gc :
  gScore s !! cur = Some gc -> 0 <= gc < noScore ->
  let nb := neighborOf cur d in
  (visit g goal cur s d = s /\
   (~ walkable g nb \/ exists old, gScore s !! nb = Some old /\ old <= gc + 1)) \/
  (visit g goal cur s d = pushed goal cur s d gc /\ walkable g nb /\
   forall old, gScore s !! nb = Some old -> gc + 1 < old).
Proof.
  intros Hc Hgc nb. unfold visit, pushed, walkable. fold nb. rewrite Hc.
  change (default 0 (Some gc)) with gc.
  unfold noScore, GridWidth, GridHeight in Hgc.
  rewrite (add_small gc 1) by (unfold GoInt.minInt, GoInt.maxInt; lia).
  destruct (isWalkable g (X nb) (Y nb)) eqn:Ew; cbn [negb].
  2:{ left. split; [done|]. left. congruence. }
  destruct (gScore s !! nb) as [old|] eqn:Eo.
  - destruct (Z.ltb_spec (gc + 1) old) as [Hlt|Hge].
    + right. split; [done|]. split; [done|]. by intros ? [= <-].
    + left. split; [done|]. right. eauto.
  - right. split; [done|]. split; [done|]. done.
Qed.

Lemma pushed_inv g start goal cur s d gc :
  SearchInv g start s -> d ∈ dirs ->
  gScore s !! cur = Some gc ->
  walkable g (neighborOf cur d) ->
  (forall old, gScore s !! neighborOf cur d = Some old -> gc + 1 < old) ->
  SearchInv g start (pushed goal cur s d gc) /\
  neighborOf cur d <> start /\ neighborOf cur d <> cur.
Proof.
  intros Hi Hd Hc Hw Himp. set (nb := neighborOf cur d) in *.
  pose proof (inv_bound _ _ _ Hi cur gc Hc) as Hgc.
  assert (Hns : nb <> start).
  { intros E. pose proof (inv_start _ _ _ Hi) as H0. rewrite <- E in H0.
    specialize (Himp 0 H0). lia. }
  assert (Hnc : nb <> cur).
  { intros E. rewrite <- E in Hc. specialize (Himp gc Hc). lia. }
  split; [|done]. unfold pushed. fold nb.
  assert (Hsize : (size (gScore s) <= size (<[nb := (gc + 1)%Z]> (gScore s)))%nat).
  { rewrite map_size_insert. destruct (gScore s !! nb); unfold id; lia. }
  constructor; simpl.
  - rewrite lookup_insert_ne by done. apply (inv_start _ _ _ Hi).
  - rewrite lookup_insert_ne by done. apply (inv_root _ _ _ Hi).
  - intros n p Hn. destruct (decide (n = nb)) as [->|Hne].
    + rewrite lookup_insert_eq in Hn. injection Hn as <-.
      split; [done|]. split; [by exists d|].
      exists gc, (gc + 1). rewrite lookup_insert_ne by done.
      rewrite lookup_insert_eq. split; [done|]. split; [done|lia].
    + rewrite lookup_insert_ne in Hn by done.
      destruct (inv_parent _ _ _ Hi n p Hn) as (Hwn & Hh & gp & gn & Hp & Hgn & Hle).
      split; [done|]. split; [done|].
      rewrite (lookup_insert_ne _ nb n) by done.
      destruct (decide (p = nb)) as [->|Hpn].
      * exists (gc + 1), gn. rewrite lookup_insert_eq.
        specialize (Himp gp Hp). split; [done|]. split; [done|lia].
      * exists gp, gn. rewrite lookup_insert_ne by done. done.
  - intros n gn Hn. destruct (decide (n = nb)) as [->|Hne].
    + right. rewrite lookup_insert_eq. eauto.
    + rewrite lookup_insert_ne in Hn by done. rewrite lookup_insert_ne by done.
      by apply (inv_dom _ _ _ Hi n gn).
  - intros n gn Hn. destruct (decide (n = nb)) as [->|Hne].
    + rewrite lookup_insert_eq in Hn. injection Hn as <-.
      split; [lia|]. rewrite map_size_insert.
      destruct (gScore s !! nb) as [old|] eqn:Eo.
      * specialize (Himp old eq_refl).
        pose proof (inv_bound _ _ _ Hi nb old Eo). unfold id. lia.
      * lia.
    + rewrite lookup_insert_ne in Hn by done.
      pose proof (inv_bound _ _ _ Hi n gn Hn). lia.
  - intros k Hk. rewrite Push_keys in Hk.
    apply elem_of_cons in Hk as [-> | Hk]; simpl.
    + rewrite lookup_insert_eq. eauto.
    + destruct (decide (k.1 = nb)) as [->|Hne].
      * rewrite lookup_insert_eq. eauto.
      * rewrite lookup_insert_ne by done. by apply (inv_open _ _ _ Hi).
Qed.

Lemma slack_nonneg g start s : SearchInv g start s -> 0 <= slack s.
Proof.
  intros Hi. unfold slack. generalize allCells as l.
  induction l as [|c l IH]; simpl; [done|].
  destruct (gScore s !! c) as [gn|] eqn:E; simpl.
  - pose proof (inv_bound _ _ _ Hi c gn E). lia.
  - assert (0 <= noScore) by (by vm_compute). lia.
Qed.

Lemma pushed_rounds g start goal cur s d gc :
  SearchInv g start s -> d ∈ dirs ->
  gScore s !! cur = Some gc ->
  walkable g (neighborOf cur d) ->
  (forall old, gScore s !! neighborOf cur d = Some old -> gc + 1 < old) ->
  roundsLeft (pushed goal cur s d gc) < roundsLeft s.
Proof.
  intros Hi Hd Hc Hw Himp.
  destruct (pushed_inv g start goal cur s d gc Hi Hd Hc Hw Himp) as (Hi' & _ & _).
  set (nb := neighborOf cur d) in *.
  assert (Hnew : gc + 1 < noScore).
  { assert (Hl : gScore (pushed goal cur s d gc) !! nb = Some (gc + 1))
      by (simpl; by rewrite lookup_insert_eq).
    by destruct (score_bound _ _ _ _ _ Hi' Hl). }
  unfold roundsLeft, pushed. fold nb. cbn [openSet]. rewrite Push_length.
  assert (Hs : slack (mkSearch (heap.Push (openSet s)
                        (mkItem nb (GoInt.add (gc + 1) (heuristic nb goal)) 0))
                      (<[nb := cur]> (cameFrom s)) (<[nb := gc + 1]> (gScore s)))
               = slack s - default noScore (gScore s !! nb) + (gc + 1)).
  { unfold slack. cbn [gScore].
    rewrite (sum_update (fun c => default noScore (gScore s !! c))
               (fun c => default noScore (<[nb := gc + 1]> (gScore s) !! c))
               allCells nb NoDup_allCells (walkable_allCells _ _ Hw)).
    - by rewrite lookup_insert_eq.
    - intros q Hq. by rewrite lookup_insert_ne. }
  rewrite Hs. destruct (gScore s !! nb) as [old|] eqn:Eo; simpl.
  - specialize (Himp old eq_refl). lia.
  - lia.
Qed.

(** A direction of an expansion keeps the invariant, never raises the
    measure, never lengthens the queue by more than one entry and leaves
    the score of the expanded cell alone. *)
Lemma visit_inv g start goal cur s d gc :
  SearchInv g start s -> d ∈ dirs -> gScore s !! cur = Some gc ->
  SearchInv g start (visit g goal cur s d) /\
  gScore (visit g goal cur s d) !! cur = Some gc /\
  roundsLeft (visit g goal cur s d) <= roundsLeft s.
Proof.
  intros Hi Hd Hc.
  pose proof (score_bound _ _ _ _ _ Hi Hc) as Hgc.
  destruct (visit_cases g goal cur s d gc Hc Hgc) as [[-> _] | (-> & Hw & Himp)].
  - split; [done|]. split; [done|lia].
  - destruct (pushed_inv g start goal cur s d gc Hi Hd Hc Hw Himp) as (Hi' & _ & Hnc).
    split; [done|]. split.
    + simpl. by rewrite lookup_insert_ne.
    + pose proof (pushed_rounds g start goal cur s d gc Hi Hd Hc Hw Himp). lia.
Qed.

Lemma visits_inv g start goal cur gc ds : forall s,
  SearchInv g start s -> ds ⊆ dirs -> gScore s !! cur = Some gc ->
  SearchInv g start (foldl (visit g goal cur) s ds) /\
  gScore (foldl (visit g goal cur) s ds) !! cur = Some gc /\
  roundsLeft (foldl (visit g goal cur) s ds) <= roundsLeft s.
Proof.
  induction ds as [|d ds IH]; intros s Hi Hsub Hc; simpl.
  - split; [done|]. split; [done|lia].
  - destruct (visit_inv g start goal cur s d gc Hi) as (Hi' & Hc' & Hr');
      [apply Hsub; by left | done |].
    destruct (IH (visit g goal cur s d) Hi') as (Hi'' & Hc'' & Hr'');
      [intros x Hx; apply Hsub; by right | done |].
    split; [done|]. split; [done|lia].
Qed.

(** *** Reconstruction *)

Lemma trail_head_least g s p l :
  trail g s (p :: l) -> forall q, q ∈ l -> gval s p < gval s q.
Proof.
  revert p. induction l as [|a l IH]; intros p Ht q Hq; [by inversion Hq|].
  destruct Ht as (_ & _ & Hlt & Ht).
  apply elem_of_cons in Hq as [-> | Hq]; [done|].
  specialize (IH a Ht q Hq). lia.
Qed.

Lemma trail_NoDup g s l : trail g s l -> NoDup l.
Proof.
  induction l as [|p l IH]; intros Ht; [constructor|].
  constructor.
  - intros Hp. pose proof (trail_head_least g s p l Ht p Hp). lia.
  - apply IH. destruct l; [done|]. by destruct Ht as (_ & _ & _ & Ht).
Qed.

Lemma trail_steps g s p l : wfPoint p -> trail g s (p :: l) -> steps g (p :: l).
Proof.
  revert p. induction l as [|q l IH]; intros p Hp Ht; [done|].
  destruct Ht as (Hh & Hw & _ & Ht).
  split; [by eapply hop_adjacent|]. split; [done|].
  apply IH; [by eapply walkable_wf | done].
Qed.

Lemma reconstruct_spec g start s :
  SearchInv g start s ->
  forall fuel cur rest gc,
    gScore s !! cur = Some gc -> gc < Z.of_nat fuel ->
    trail g s (cur :: rest) ->
    exists p,
      reconstruct fuel (cameFrom s) start cur (cur :: rest) = Some p /\
      head p = Some start /\ trail g s p /\
      last p = last (cur :: rest) /\
      Z.of_nat (length p) <= Z.of_nat (length (cur :: rest)) + gc.
Proof.
  intros Hi. induction fuel as [|fuel IH]; intros cur rest gc Hc Hf Ht.
  - pose proof (inv_bound _ _ _ Hi cur gc Hc). simpl.
    destruct (decide (cur = start)) as [->|Hne]; [|lia].
    exists (start :: rest). repeat split; try done. simpl. lia.
  - simpl. destruct (decide (cur = start)) as [->|Hne].
    { exists (start :: rest). repeat split; try done.
      pose proof (inv_bound _ _ _ Hi start gc Hc). simpl. lia. }
    destruct (inv_dom _ _ _ Hi cur gc Hc) as [?|[p Hp]]; [done|].
    rewrite Hp. simpl.
    destruct (inv_parent _ _ _ Hi cur p Hp) as (Hw & Hh & gp & gn & Hgp & Hgn & Hle).
    rewrite Hc in Hgn. injection Hgn as <-.
    destruct (IH p (cur :: rest) gp Hgp ltac:(lia)) as (q & Hq & Hhd & Htr & Hl & Hlen).
    { split; [done|]. split; [done|]. split; [|done].
      unfold gval. rewrite Hgp, Hc. simpl. lia. }
    exists q. split; [done|]. split; [done|]. split; [done|].
    split; [by rewrite Hl|]. simpl in *. lia.
Qed.

(** *** The loop ends, and what it returns is a path *)

Lemma roundsLeft_nonneg g start s : SearchInv g start s -> 0 <= roundsLeft s.
Proof.
  intros Hi. pose proof (slack_nonneg g start s Hi). unfold roundsLeft. lia.
Qed.

(** Popping keeps the invariant, and the entry popped has a score. *)
Lemma pop_inv g start s it rest :
  SearchInv g start s -> heap.Pop (openSet s) = Some (it, rest) ->
  SearchInv g start (mkSearch rest (cameFrom s) (gScore s)) /\
  is_Some (gScore s !! point it) /\
  roundsLeft (mkSearch rest (cameFrom s) (gScore s)) = roundsLeft s - 1.
Proof.
  intros Hi HP. pose proof (Pop_keys _ _ _ HP) as [Hperm _].
  pose proof (Pop_length _ _ _ HP) as Hlen.
  split; [|split].
  - destruct Hi as [H1 H2 H3 H4 H5 H6]. constructor; simpl; try done.
    intros k Hk. apply H6. rewrite Hperm. by right.
  - apply (inv_open _ _ _ Hi (itemKey it)). rewrite Hperm. by left.
  - unfold roundsLeft, slack. simpl. lia.
Qed.

Lemma search_sound g start goal : forall fuel s,
  SearchInv g start s -> roundsLeft s < Z.of_nat fuel ->
  exists r, search fuel g start goal s = Some r /\
    forall p, r = Some p ->
      head p = Some start /\ last p = Some goal /\
      exists s', trail g s' p.
Proof.
  induction fuel as [|fuel IH]; intros s Hi Hf.
  { pose proof (roundsLeft_nonneg g start s Hi). lia. }
  cbn [search].
  destruct (heap.Pop (openSet s)) as [[it rest]|] eqn:HP.
  2:{ exists None. split; [done|]. done. }
  destruct (pop_inv g start s it rest Hi HP) as (Hi1 & [gc Hc] & Hr1).
  destruct (decide (point it = goal)) as [Hg|Hg].
  - pose proof (score_bound _ _ _ _ _ Hi Hc) as Hb.
    destruct (reconstruct_spec g start s Hi reconstructFuel (point it) [] gc Hc)
      as (p & -> & Hhd & Htr & Hl & _).
    { unfold reconstructFuel. unfold noScore in Hb. lia. }
    { done. }
    exists (Some p). split; [done|]. intros ? [= <-].
    split; [done|]. split; [by rewrite Hl, <- Hg|]. by exists s.
  - destruct (visits_inv g start goal (point it) gc dirs
                (mkSearch rest (cameFrom s) (gScore s)) Hi1 ltac:(done) Hc)
      as (Hi2 & _ & Hr2).
    apply IH; [done | lia].
Qed.

Lemma initSearch_inv g start : SearchInv g start (initSearch start).
Proof.
  assert (Hk : itemKey <$> openSet (initSearch start) = [(start, 0)]).
  { unfold initSearch. simpl. unfold heap.Push, PQ.Push, heap.up. simpl.
    done. }
  constructor.
  - simpl. by rewrite lookup_singleton_eq.
  - done.
  - simpl. intros n p Hn. by rewrite lookup_empty in Hn.
  - simpl. intros n gn Hn. apply lookup_singleton_Some in Hn as [<- _]. by left.
  - simpl. intros n gn Hn. apply lookup_singleton_Some in Hn as [<- <-].
    rewrite map_size_singleton. lia.
  - intros k Hk'. rewrite Hk in Hk'. apply list_elem_of_singleton in Hk' as ->.
    simpl. rewrite lookup_singleton_eq. eauto.
Qed.

Lemma initSearch_rounds start : roundsLeft (initSearch start) < Z.of_nat searchFuel.
Proof.
  unfold roundsLeft.
  assert (Hs : slack (initSearch start) <= noScore * 300).
  { assert (Hf : forall c, default noScore (gScore (initSearch start) !! c) <= noScore).
    { intros c. unfold initSearch. cbn [gScore].
      destruct (decide (c = start)) as [->|Hne].
      - rewrite lookup_singleton_eq. by vm_compute.
      - rewrite lookup_singleton_ne by done. simpl. lia. }
    change 300 with (Z.of_nat 300). unfold slack. rewrite <- length_allCells.
    revert Hf. generalize (gScore (initSearch start)) as m. intros m Hf.
    generalize allCells as l.
    induction l as [|c l IH]; cbn [foldr length]; [lia|].
    specialize (Hf c). lia. }
  assert (Hl : length (openSet (initSearch start)) = 1%nat) by done.
  rewrite Hl. unfold searchFuel.
  change (2 * (GridWidth * GridHeight) * (GridWidth * GridHeight + 1) + 2) with 180602.
  change noScore with 301 in Hs. lia.
Qed.

(** The rounds allowed to [findPath] always suffice. *)
Lemma search_enough_fuel g start goal :
  exists r, findPath_run searchFuel g start goal = Some r /\
            findPath g start goal = r.
Proof.
  destruct (search_sound g start goal searchFuel (initSearch start)
              (initSearch_inv g start) (initSearch_rounds start)) as (r & Hr & _).
  exists r. unfold findPath, findPath_run. by rewrite Hr.
Qed.

(** *** The frontier *)

Lemma heuristic_grid n goal :
  inGrid (X n) (Y n) = true -> inGrid (X goal) (Y goal) = true ->
  heuristic n goal = manhattan n goal.
Proof.
  unfold inGrid, GridWidth, GridHeight, heuristic, manhattan. intros Hn Hg.
  rewrite !sub_small by (unfold GoInt.minInt, GoInt.maxInt; lia).
  unfold GoInt.neg.
  destruct (Z.ltb_spec (X n - X goal) 0), (Z.ltb_spec (Y n - Y goal) 0);
    rewrite ?wrap_id by (unfold GoInt.inRange, GoInt.minInt, GoInt.maxInt; lia);
    rewrite add_small by (unfold GoInt.minInt, GoInt.maxInt; lia); lia.
Qed.

Lemma manhattan_bounds n goal :
  inGrid (X n) (Y n) = true -> inGrid (X goal) (Y goal) = true ->
  0 <= manhattan n goal <= 33.
Proof. unfold inGrid, GridWidth, GridHeight, manhattan. lia. Qed.

(** The estimate never exceeds the Manhattan distance, which no chain
    beats. *)
Lemma est_le_manhattan g start goal n :
  inGrid (X goal) (Y goal) = true -> n = start \/ walkable g n ->
  0 <= est start goal n <= manhattan n goal.
Proof.
  intros Hg Hn. unfold est. destruct (decide (n = start)) as [->|Hne].
  - unfold manhattan. lia.
  - destruct Hn as [?|Hw]; [done|]. apply walkable_inGrid in Hw.
    rewrite heuristic_grid by done.
    pose proof (manhattan_bounds n goal Hw Hg). lia.
Qed.

Lemma steps_manhattan g goal l : forall a,
  head l = Some a -> last l = Some goal -> steps g l ->
  manhattan a goal <= Z.of_nat (length l) - 1.
Proof.
  induction l as [|x l IH]; intros a Hh Hl Hs; [done|].
  injection Hh as ->. destruct l as [|b l].
  - injection Hl as ->. unfold manhattan. simpl. lia.
  - destruct Hs as (Hadj & _ & Hs).
    specialize (IH b eq_refl Hl Hs). unfold adjacent in Hadj.
    unfold manhattan in *. simpl length in *. lia.
Qed.

Lemma pop_frontier g start goal s c it rest :
  FrontierInv g start goal s c dirs ->
  heap.Pop (openSet s) = Some (it, rest) ->
  point it <> goal ->
  FrontierInv g start goal (mkSearch rest (cameFrom s) (gScore s)) (point it) [].
Proof.
  intros [H1 H2 H3 H4] HP Hng.
  pose proof (Pop_keys _ _ _ HP) as [Hperm _].
  destruct (Pop_heapOrdered _ _ _ H3 HP) as [Hh _].
  constructor; simpl; try done.
  - intros n gn Hn. destruct (decide (n = point it)) as [->|Hne].
    { right. intros d Hd. by inversion Hd. }
    destruct (H1 n gn Hn) as [(k & Hk & Hk1 & Hk2)|Hs].
    + left. exists k. split; [|done]. rewrite Hperm in Hk.
      apply elem_of_cons in Hk as [-> | Hk]; [|done]. simpl in Hk1. congruence.
    + right. by destruct (decide (n = c)).
  - intros k Hk. apply H2. rewrite Hperm. by right.
  - intros Hg. destruct (H4 Hg) as (k & Hk & Hk1). exists k. split; [|done].
    rewrite Hperm in Hk.
    apply elem_of_cons in Hk as [-> | Hk]; [|done]. simpl in Hk1. congruence.
Qed.

Lemma settled_snoc g s n ds d :
  settled g s n ds ->
  (walkable g (neighborOf n d) ->
   exists gm, gScore s !! neighborOf n d = Some gm /\ gm <= gval s n + 1) ->
  settled g s n (ds ++ [d]).
Proof.
  intros Hs Hd d' Hd'. apply elem_of_app in Hd' as [Hd' | Hd'].
  - by apply Hs.
  - apply list_elem_of_singleton in Hd' as ->. done.
Qed.

Lemma stay_frontier g start goal s cur done d gc :
  FrontierInv g start goal s cur done ->
  gScore s !! cur = Some gc ->
  (~ walkable g (neighborOf cur d) \/
   exists old, gScore s !! neighborOf cur d = Some old /\ old <= gc + 1) ->
  FrontierInv g start goal s cur (done ++ [d]).
Proof.
  intros [H1 H2 H3 H4] Hc Hcase. constructor; try done.
  intros n gn Hn. destruct (H1 n gn Hn) as [?|Hs]; [by left|]. right.
  destruct (decide (n = cur)) as [->|Hne]; [|done].
  apply settled_snoc; [done|]. intros Hw.
  destruct Hcase as [?|(old & Ho & Hle)]; [done|].
  exists old. split; [done|]. unfold gval. rewrite Hc. simpl. lia.
Qed.

Lemma pushed_frontier g start goal s cur done d gc :
  SearchInv g start s -> FrontierInv g start goal s cur done ->
  inGrid (X goal) (Y goal) = true ->
  d ∈ dirs -> gScore s !! cur = Some gc ->
  walkable g (neighborOf cur d) ->
  (forall old, gScore s !! neighborOf cur d = Some old -> gc + 1 < old) ->
  FrontierInv g start goal (pushed goal cur s d gc) cur (done ++ [d]).
Proof.
  intros Hi [H1 H2 H3 H4] Hgoal Hd Hc Hw Himp.
  destruct (pushed_inv g start goal cur s d gc Hi Hd Hc Hw Himp) as (Hi' & Hns & Hnc).
  pose proof (score_bound _ _ _ _ _ Hi Hc) as Hgc.
  set (nb := neighborOf cur d) in *.
  pose proof (walkable_inGrid _ _ Hw) as Hnbg.
  pose proof (manhattan_bounds nb goal Hnbg Hgoal) as Hm.
  assert (Hprio : GoInt.add (gc + 1) (heuristic nb goal) = gc + 1 + est start goal nb).
  { unfold est. destruct (decide (nb = start)); [done|].
    rewrite heuristic_grid by done. unfold noScore, GridWidth, GridHeight in Hgc.
    apply add_small. unfold GoInt.minInt, GoInt.maxInt. lia. }
  assert (Hgv : forall n, n <> nb -> gval (pushed goal cur s d gc) n = gval s n).
  { intros n Hn. unfold gval, pushed. cbn [gScore]. fold nb.
    by rewrite lookup_insert_ne. }
  assert (Hlow : forall m gm, gScore s !! m = Some gm ->
            exists gm', gScore (pushed goal cur s d gc) !! m = Some gm' /\ gm' <= gm).
  { intros m gm Hm'. unfold pushed. cbn [gScore]. fold nb.
    destruct (decide (m = nb)) as [->|Hne].
    - rewrite lookup_insert_eq. exists (gc + 1). split; [done|].
      specialize (Himp gm Hm'). lia.
    - rewrite lookup_insert_ne by done. exists gm. split; [done|lia]. }
  assert (Hkeys : forall k, k ∈ (itemKey <$> openSet (pushed goal cur s d gc)) <->
            k = (nb, gc + 1 + est start goal nb) \/ k ∈ (itemKey <$> openSet s)).
  { intros k. unfold pushed. cbn [openSet]. fold nb. rewrite Push_keys.
    rewrite elem_of_cons. unfold itemKey at 1. cbn [point priority].
    by rewrite Hprio. }
  constructor.
  - intros n gn Hn. destruct (decide (n = nb)) as [->|Hne].
    { left. exists (nb, gc + 1 + est start goal nb). split; [apply Hkeys; by left|].
      split; [done|]. unfold pushed in Hn. cbn [gScore] in Hn. fold nb in Hn.
      rewrite lookup_insert_eq in Hn. injection Hn as <-. simpl. lia. }
    assert (Hn' : gScore s !! n = Some gn).
    { unfold pushed in Hn. cbn [gScore] in Hn. fold nb in Hn.
      by rewrite lookup_insert_ne in Hn. }
    destruct (H1 n gn Hn') as [(k & Hk & Hk1 & Hk2)|Hs].
    { left. exists k. split; [apply Hkeys; by right | done]. }
    right.
    assert (Hold : settled g (pushed goal cur s d gc) n
                     (if decide (n = cur) then done else dirs)).
    { intros d' Hd' Hw'. destruct (Hs d' Hd' Hw') as (gm & Hgm & Hle).
      destruct (Hlow _ _ Hgm) as (gm' & Hgm' & Hle').
      exists gm'. split; [done|]. rewrite Hgv by done. lia. }
    destruct (decide (n = cur)) as [->|Hnc']; [|done].
    apply settled_snoc; [done|]. intros _. fold nb.
    exists (gc + 1). split.
    + unfold pushed. cbn [gScore]. fold nb. by rewrite lookup_insert_eq.
    + rewrite Hgv by done. unfold gval. rewrite Hc. simpl. lia.
  - intros k Hk. apply Hkeys in Hk as [-> | Hk].
    + exists (gc + 1). simpl. split; [|lia].
      unfold pushed. cbn [gScore]. fold nb. by rewrite lookup_insert_eq.
    + destruct (H2 k Hk) as (gn & Hgn & Hle).
      destruct (Hlow _ _ Hgn) as (gn' & Hgn' & Hle').
      exists gn'. split; [done|lia].
  - unfold pushed. cbn [openSet]. by apply Push_heapOrdered.
  - intros Hg. destruct (decide (goal = nb)) as [Hgn|Hne].
    + exists (nb, gc + 1 + est start goal nb). split; [apply Hkeys; by left | done].
    + unfold pushed in Hg. cbn [gScore] in Hg. fold nb in Hg.
      rewrite lookup_insert_ne in Hg by done.
      destruct (H4 Hg) as (k & Hk & Hk1). exists k.
      split; [apply Hkeys; by right | done].
Qed.

Lemma visit_frontier g start goal s cur done d gc :
  SearchInv g start s -> FrontierInv g start goal s cur done ->
  inGrid (X goal) (Y goal) = true ->
  d ∈ dirs -> gScore s !! cur = Some gc ->
  FrontierInv g start goal (visit g goal cur s d) cur (done ++ [d]).
Proof.
  intros Hi Hfr Hgoal Hd Hc.
  pose proof (score_bound _ _ _ _ _ Hi Hc) as Hgc.
  destruct (visit_cases g goal cur s d gc Hc Hgc) as [[-> Hcase] | (-> & Hw & Himp)].
  - by apply (stay_frontier g start goal s cur done d gc).
  - by apply pushed_frontier.
Qed.

Lemma visits_frontier g start goal cur gc ds : forall s done,
  SearchInv g start s -> FrontierInv g start goal s cur done ->
  inGrid (X goal) (Y goal) = true ->
  ds ⊆ dirs -> gScore s !! cur = Some gc ->
  FrontierInv g start goal (foldl (visit g goal cur) s ds) cur (done ++ ds).
Proof.
  induction ds as [|d ds IH]; intros s done Hi Hfr Hgoal Hsub Hc; simpl.
  - by rewrite app_nil_r.
  - assert (Hd : d ∈ dirs) by (apply Hsub; by left).
    destruct (visit_inv g start goal cur s d gc Hi Hd Hc) as (Hi' & Hc' & _).
    replace (done ++ d :: ds) with ((done ++ [d]) ++ ds) by (by rewrite <- app_assoc).
    apply IH; try done.
    + by apply (visit_frontier g start goal s cur done d gc).
    + intros x Hx. apply Hsub. by right.
Qed.

(** *** Completeness and minimality *)

Lemma est_goal start goal :
  inGrid (X goal) (Y goal) = true -> est start goal goal = 0.
Proof.
  intros Hg. unfold est. destruct (decide (goal = start)); [done|].
  rewrite heuristic_grid by done. unfold manhattan. lia.
Qed.

(** Along a chain from a cell with a score: either the goal has a score
    within the length of the chain, or the queue holds an entry whose
    priority is within it. *)
Lemma chain_progress g start goal s c :
  SearchInv g start s -> FrontierInv g start goal s c dirs ->
  wfPoint start -> inGrid (X goal) (Y goal) = true ->
  forall l a ga,
    a = start \/ walkable g a ->
    head l = Some a -> last l = Some goal -> steps g l ->
    gScore s !! a = Some ga ->
    (exists gg, gScore s !! goal = Some gg /\ gg <= ga + Z.of_nat (length l) - 1) \/
    (exists k, k ∈ (itemKey <$> openSet s) /\ k.2 <= ga + Z.of_nat (length l) - 1).
Proof.
  intros Hi Hfr Hwf Hgoal.
  induction l as [|x l IH]; intros a ga Ha Hh Hl Hs Hga; [done|].
  injection Hh as ->. destruct l as [|b l].
  { injection Hl as ->. left. exists ga. split; [done|]. simpl. lia. }
  pose proof (steps_manhattan g goal (a :: b :: l) a eq_refl Hl Hs) as Hman.
  destruct Hs as (Hadj & Hwb & Hs).
  destruct (fr_pending _ _ _ _ _ _ Hfr a ga Hga) as [(k & Hk & Hk1 & Hk2)|Hset].
  - right. exists k. split; [done|].
    pose proof (est_le_manhattan g start goal a Hgoal Ha). lia.
  - assert (Hset' : settled g s a dirs) by (by destruct (decide (a = c))).
    assert (Hwfa : wfPoint a).
    { destruct Ha as [->|Hw]; [done | by eapply walkable_wf]. }
    destruct (adjacent_hop g a b Hwfa Hwb Hadj) as (d & Hd & Hb).
    rewrite Hb in Hwb. destruct (Hset' d Hd Hwb) as (gm & Hgm & Hle).
    rewrite <- Hb in Hgm, Hwb.
    unfold gval in Hle. rewrite Hga in Hle. simpl in Hle.
    destruct (IH b gm (or_intror Hwb) eq_refl Hl Hs Hgm)
      as [(gg & Hgg & Hb1)|(k & Hk & Hb2)].
    + left. exists gg. split; [done|]. simpl length in *. lia.
    + right. exists k. split; [done|]. simpl length in *. lia.
Qed.

Lemma search_optimal g start goal :
  wfPoint start -> inGrid (X goal) (Y goal) = true ->
  forall fuel s c r l,
    SearchInv g start s -> FrontierInv g start goal s c dirs ->
    chain g start goal l ->
    search fuel g start goal s = Some r ->
    exists p, r = Some p /\ (length p <= length l)%nat.
Proof.
  intros Hwf Hgoal. induction fuel as [|fuel IH];
    intros s c r l Hi Hfr (Hh & Hl & Hs); [done|].
  cbn [search].
  pose proof (chain_progress g start goal s c Hi Hfr Hwf Hgoal l start 0
                (or_introl eq_refl) Hh Hl Hs (inv_start _ _ _ Hi)) as Hprog.
  destruct (heap.Pop (openSet s)) as [[it rest]|] eqn:HP.
  2:{ apply Pop_None in HP. exfalso.
      destruct Hprog as [(gg & Hgg & _)|(k & Hk & _)].
      - destruct (fr_goal _ _ _ _ _ _ Hfr (ex_intro _ gg Hgg)) as (k & Hk & _).
        rewrite HP in Hk. by inversion Hk.
      - rewrite HP in Hk. by inversion Hk. }
  destruct (pop_inv g start s it rest Hi HP) as (Hi1 & [gc Hc] & Hr1).
  destruct (decide (point it = goal)) as [Hg|Hg].
  - pose proof (score_bound _ _ _ _ _ Hi Hc) as Hb.
    destruct (reconstruct_spec g start s Hi reconstructFuel (point it) [] gc Hc)
      as (p & -> & _ & _ & _ & Hlen).
    { unfold reconstructFuel. unfold noScore in Hb. lia. }
    { done. }
    intros [= <-]. exists p. split; [done|].
    assert (Hgc : gc <= Z.of_nat (length l) - 1).
    { destruct Hprog as [(gg & Hgg & Hle)|(k & Hk & Hle)].
      - rewrite Hg in Hc. rewrite Hc in Hgg. injection Hgg as <-. lia.
      - pose proof (Pop_keys _ _ _ HP) as [Hperm _].
        destruct (Pop_heapOrdered _ _ _ (fr_heap _ _ _ _ _ _ Hfr) HP) as [_ Hmin].
        apply list_elem_of_fmap in Hk as (x & -> & Hx).
        specialize (Hmin x Hx).
        destruct (fr_lower _ _ _ _ _ _ Hfr (itemKey it)) as (gn & Hgn & Hlow).
        { rewrite Hperm. by left. }
        simpl in Hgn, Hlow, Hle. rewrite Hc in Hgn. injection Hgn as <-.
        rewrite Hg, est_goal in Hlow by done. lia. }
    simpl length in Hlen. lia.
  - pose proof (pop_frontier g start goal s c it rest Hfr HP Hg) as Hfr1.
    destruct (visits_inv g start goal (point it) gc dirs
                (mkSearch rest (cameFrom s) (gScore s)) Hi1 ltac:(done) Hc)
      as (Hi2 & _ & _).
    pose proof (visits_frontier g start goal (point it) gc dirs
                  (mkSearch rest (cameFrom s) (gScore s)) [] Hi1 Hfr1 Hgoal
                  ltac:(done) Hc) as Hfr2.
    intros Hr. by apply (IH _ (point it) r l Hi2 Hfr2).
Qed.

Lemma initSearch_frontier g start goal :
  FrontierInv g start goal (initSearch start) start dirs.
Proof.
  assert (Hk : itemKey <$> openSet (initSearch start) = [(start, 0)]) by done.
  constructor.
  - intros n gn Hn. left. exists (start, 0). rewrite Hk.
    unfold initSearch in Hn. cbn [gScore] in Hn.
    apply lookup_singleton_Some in Hn as [<- <-].
    split; [by left|]. split; [done|]. simpl. unfold est.
    by destruct (decide (start = start)).
  - intros k Hk'. rewrite Hk in Hk'. apply list_elem_of_singleton in Hk' as ->.
    exists 0. split; [by (simpl; rewrite lookup_singleton_eq)|].
    simpl. unfold est. by destruct (decide (start = start)).
  - intros k Hk'. simpl in Hk'. lia.
  - intros [gg Hg]. unfold initSearch in Hg. cbn [gScore] in Hg.
    apply lookup_singleton_Some in Hg as [<- _].
    exists (start, 0). rewrite Hk. split; [by left | done].
Qed.

(** *** [findPath] *)

Lemma steps_lookup g l :
  steps g l <->
  forall i p q, l !! i = Some p -> l !! S i = Some q -> adjacent p q /\ walkable g q.
Proof.
  induction l as [|a l IH]; [by split|].
  destruct l as [|b l]; [split; [intros _ [|i] p q; done | done]|].
  destruct IH as [IH1 IH2]. split.
  - intros (Hadj & Hw & Hs) [|i] p q Hp Hq.
    + injection Hp as <-. injection Hq as <-. done.
    + by apply (IH1 Hs i).
  - intros H. split; [apply (H 0%nat a b); done|].
    split; [apply (H 0%nat a b); done|].
    apply IH2. intros i p q Hp Hq. by apply (H (S i)).
Qed.

Lemma chain_last_walkable g l : forall a b,
  chain g a b l -> a <> b -> walkable g b.
Proof.
  induction l as [|x l IH]; intros a b (Hh & Hl & Hs) Hne; [done|].
  injection Hh as ->. destruct l as [|c l]; [by injection Hl|].
  destruct Hs as (_ & Hw & Hs).
  destruct (decide (c = b)) as [->|Hcb]; [done|].
  by apply (IH c b).
Qed.

Lemma findPath_same g start : findPath g start start = Some [start].
Proof.
  unfold findPath, findPath_run.
  assert (Hf : exists n, searchFuel = S n).
  { exists (Nat.pred searchFuel). unfold searchFuel, GridWidth, GridHeight. lia. }
  destruct Hf as [n ->]. cbn [search].
  assert (HP : heap.Pop (openSet (initSearch start))
               = Some (mkItem start 0 (-1), [])) by done.
  rewrite HP. cbn [point].
  destruct (decide (start = start)) as [_|?]; [|done].
  unfold reconstructFuel. destruct (Z.to_nat _); simpl;
    by destruct (decide (start = start)).
Qed.

(** What [findPath] returns is a chain from the source to the target
    without repetition. *)
Lemma findPath_sound g start goal p :
  wfPoint start -> findPath g start goal = Some p ->
  chain g start goal p /\ NoDup p.
Proof.
  intros Hwf Hp.
  destruct (search_sound g start goal searchFuel (initSearch start)
              (initSearch_inv g start) (initSearch_rounds start)) as (r & Hr & Hspec).
  unfold findPath, findPath_run in Hp. rewrite Hr in Hp. subst r.
  destruct (Hspec p eq_refl) as (Hh & Hl & s' & Ht).
  split; [|by eapply trail_NoDup].
  split; [done|]. split; [done|].
  destruct p as [|a p]; [done|]. injection Hh as ->.
  by eapply trail_steps.
Qed.

Lemma findPath_complete g start goal l :
  wfPoint start -> chain g start goal l ->
  exists p, findPath g start goal = Some p /\ (length p <= length l)%nat.
Proof.
  intros Hwf Hc. destruct (decide (start = goal)) as [<-|Hne].
  - exists [start]. split; [apply findPath_same|].
    destruct Hc as (Hh & _). destruct l; [done|]. simpl. lia.
  - pose proof (chain_last_walkable g l start goal Hc Hne) as Hw.
    destruct (search_enough_fuel g start goal) as (r & Hr & Hf).
    destruct (search_optimal g start goal Hwf (walkable_inGrid _ _ Hw)
                searchFuel (initSearch start) start r l
                (initSearch_inv g start) (initSearch_frontier g start goal) Hc Hr)
      as (p & -> & Hlen).
    exists p. by rewrite Hf.
Qed.

Lemma loose_to_chain g a b l :
  looseChain g a b l -> walkable g b -> chain g a b l.
Proof.
  intros (Hh & Hl & Hadj & Hin) Hw. split; [done|]. split; [done|].
  apply steps_lookup. intros i p q Hp Hq. split; [by apply (Hadj i)|].
  destruct (decide (S (S i) < length l)%nat) as [Hlt|Hge].
  - by apply (Hin (S i)); [|lia|].
  - pose proof (lookup_lt_Some _ _ _ Hq) as Hlen.
    rewrite last_lookup in Hl. replace (pred (length l)) with (S i) in Hl by lia.
    rewrite Hq in Hl. by injection Hl as ->.
Qed.

(** C4 (amended): for a source with [int] coordinates, [findPath] returns
    a path exactly when the grid has a chain from source to target, that
    is a sequence of cells that starts at the source, ends at the target
    and in which every cell is 4-adjacent to the one before it and, the
    source apart, walkable; the source itself is never tested, the target
    is.  Every path returned starts at the source, ends at the target, has
    consecutive cells 4-adjacent, has every cell after the first walkable
    and holds no cell twice. *)
Theorem findPath_iff_chain (g : Grid) (start goal : Point) :
  wfPoint start ->
  (is_Some (findPath g start goal) <-> exists l, chain g start goal l) /\
  (forall p, findPath g start goal = Some p ->
     head p = Some start /\ last p = Some goal /\
     (forall i a b, p !! i = Some a -> p !! S i = Some b -> adjacent a b) /\
     (forall i a, p !! i = Some a -> (0 < i)%nat -> walkable g a) /\
     NoDup p).
Proof.
  intros Hwf. split.
  - split.
    + intros [p Hp]. exists p. by apply findPath_sound.
    + intros [l Hl]. destruct (findPath_complete g start goal l Hwf Hl) as (p & -> & _).
      eauto.
  - intros p Hp. destruct (findPath_sound g start goal p Hwf Hp) as ((Hh & Hl & Hs) & Hnd).
    pose proof (proj1 (steps_lookup g p) Hs) as Hst.
    split; [done|]. split; [done|]. split; [|split; [|done]].
    + intros i a b Ha Hb. by apply (Hst i a b).
    + intros [|i] a Ha Hpos; [lia|].
      destruct (lookup_lt_is_Some_2 p i) as [a' Ha'].
      { apply lookup_lt_Some in Ha. lia. }
      by apply (Hst i a' a).
Qed.

Lemma findPath_iff_chain_witness :
  (is_Some (findPath initialGrid (mkPoint 10 1) (mkPoint 10 13)) <->
   exists l, chain initialGrid (mkPoint 10 1) (mkPoint 10 13) l) /\
  (forall p, findPath initialGrid (mkPoint 10 1) (mkPoint 10 13) = Some p ->
     head p = Some (mkPoint 10 1) /\ last p = Some (mkPoint 10 13) /\
     (forall i a b, p !! i = Some a -> p !! S i = Some b -> adjacent a b) /\
     (forall i a, p !! i = Some a -> (0 < i)%nat -> walkable initialGrid a) /\
     NoDup p).
Proof.
  apply (findPath_iff_chain initialGrid (mkPoint 10 1) (mkPoint 10 13)).
  vm_compute. repeat split; discriminate.
Defined.

(** C4 as stated fails under both readings of "every cell walkable except
    possibly the endpoints".  With the ends exempt, the ground cell (1,1)
    and the wall cell (0,1) next to it form a chain, yet [findPath] returns
    nothing for that target.  With every cell of a chain walkable, no
    chain leaves the wall cell (0,1), yet [findPath] returns a path from
    it to (1,1). *)
Lemma findPath_tests_target_not_source :
  let c := mkPoint 1 1 in
  let w := mkPoint 0 1 in
  looseChain initialGrid c w [c; w] /\
  findPath initialGrid c w = None /\
  findPath initialGrid w c = Some [w; c] /\
  (forall l, ~ strictChain initialGrid w c l).
Proof.
  intros c w. split; [|split; [|split]].
  - split; [done|]. split; [done|]. split.
    + intros [|[|i]] p q Hp Hq; try done.
      injection Hp as <-. injection Hq as <-. by vm_compute.
    + intros [|[|i]] p Hp Hpos Hlen; simpl in *; lia.
  - by vm_compute.
  - by vm_compute.
  - intros l (Hh & _ & _ & Hall).
    assert (Hw : walkable initialGrid w).
    { apply Hall. destruct l; [done|]. injection Hh as ->. by left. }
    by vm_compute in Hw.
Qed.

(** C5: [findPath] returns a shortest path: no sequence of 4-adjacent
    cells from source to target whose inner cells are walkable has fewer
    cells than the path returned.  On the 20x15 grid of ground inside a
    ring of wall, from the spawn cell (10,1) to the base cell (10,13), the
    path returned is the straight column of 13 cells. *)
Theorem findPath_shortest (g : Grid) (start goal : Point) (p l : list Point) :
  wfPoint start ->
  findPath g start goal = Some p ->
  looseChain g start goal l ->
  (length p <= length l)%nat /\
  findPath ringGrid (mkPoint 10 1) (mkPoint 10 13) = Some straightPath /\
  length straightPath = 13%nat /\
  straightPath = mkPoint 10 <$> range 1 14.
Proof.
  intros Hwf Hp Hl. split; [|by vm_compute].
  destruct (decide (start = goal)) as [<-|Hne].
  - rewrite findPath_same in Hp. injection Hp as <-.
    destruct Hl as (Hh & _). destruct l; [done|]. simpl. lia.
  - destruct (findPath_sound g start goal p Hwf Hp) as (Hc & _).
    pose proof (chain_last_walkable g p start goal Hc Hne) as Hw.
    destruct (findPath_complete g start goal l Hwf (loose_to_chain _ _ _ _ Hl Hw))
      as (p' & Hp' & Hlen).
    rewrite Hp in Hp'. by injection Hp' as <-.
Qed.

Lemma findPath_shortest_witness :
  let a := mkPoint 10 1 in
  let b := mkPoint 10 3 in
  let p := [a; mkPoint 10 2; b] in
  let l := [a; mkPoint 11 1; mkPoint 11 2; mkPoint 11 3; b] in
  (length p <= length l)%nat /\
  findPath ringGrid (mkPoint 10 1) (mkPoint 10 13) = Some straightPath /\
  length straightPath = 13%nat /\
  straightPath = mkPoint 10 <$> range 1 14.
Proof.
  intros a b p l. apply (findPath_shortest ringGrid a b p l).
  - vm_compute. repeat split; discriminate.
  - by vm_compute.
  - split; [done|]. split; [done|]. split.
    + intros [|[|[|[|[|i]]]]] x y Hx Hy; try done;
        injection Hx as <-; injection Hy as <-; by vm_compute.
    + intros [|[|[|[|[|i]]]]] x Hx Hpos Hlen; simpl in *; try lia;
        injection Hx as <-; by vm_compute.
Defined.
